(** * Fraud flagging on a self-organising map

    A shallow embedding of [deep-learning-a-z/som/som.py]: min-max scaling of
    the customer table, the winner / reverse-index queries of the trained map,
    and the selection loop that collects the customers of every cell whose
    mean inter-neuron distance exceeds the threshold.

    Numbers are exact rationals ([Qc], canonical fractions with Leibniz
    equality): every statement below is about exact arithmetic, not about
    IEEE-754 rounding.  NumPy arrays are lists of rows. *)

From Stdlib Require Import QArith Qcanon ZArith Ascii Lia.
From stdpp Require Import base option list gmap numbers.

Open Scope Qc_scope.

(** ** Python exceptions and fallible results *)

Inductive exn : Type :=
| ValueError_no_sample      (* check_array: 0 sample(s) / not a 2-D array *)
| ValueError_no_feature     (* check_array: 0 feature(s) *)
| ValueError_shape          (* ragged input, or operands could not be broadcast *)
| ValueError_feature_range  (* MinMaxScaler: minimum of range not below maximum *)
| ValueError_concatenate    (* np.concatenate: need at least one array *)
| IndexError                (* list index out of range *)
| TypeError.                (* object of the wrong kind *)

Inductive result (A : Type) : Type :=
| Ok (a : A)
| Raise (e : exn).
Arguments Ok {A} a.
Arguments Raise {A} e.

#[global] Instance result_ret : MRet result := λ A a, Ok a.
#[global] Instance result_bind : MBind result := λ A B f m,
  match m with Ok a => f a | Raise e => Raise e end.
#[global] Instance result_fmap : FMap result := λ A B f m,
  match m with Ok a => Ok (f a) | Raise e => Raise e end.

Lemma bind_Ok {A B} (f : A → result B) (m : result A) (b : B) :
  m ≫= f = Ok b ↔ ∃ a, m = Ok a ∧ f a = Ok b.
Proof.
  destruct m as [a|e]; simpl; split.
  - intros H; exists a; auto.
  - intros (a' & [= <-] & H); exact H.
  - discriminate.
  - intros (a' & [=] & _).
Qed.

(** A [for] loop whose body may raise: the state is threaded through the
    elements in order and the first exception aborts the loop. *)
Fixpoint for_each {A S : Type} (body : A → S → result S) (l : list A) (s : S)
  : result S :=
  match l with
  | [] => Ok s
  | a :: l' => s' ← body a s; for_each body l' s'
  end.

Lemma for_each_app {A S} (body : A → S → result S) l1 l2 s :
  for_each body (l1 ++ l2) s = s' ← for_each body l1 s; for_each body l2 s'.
Proof.
  revert s; induction l1 as [|a l1 IH]; intros s; simpl; [done|].
  destruct (body a s) as [s'|e]; simpl; [apply IH|done].
Qed.

(** ** Vectors and matrices *)

Abbreviation vector := (list Qc).
Abbreviation matrix := (list (list Qc)).

Definition Qc_min (a b : Qc) : Qc := if decide (a ≤ b) then a else b.
Definition Qc_max (a b : Qc) : Qc := if decide (a ≤ b) then b else a.

(** External (scikit-learn's input validation, run by [fit], [transform]
    and [inverse_transform]): the input must be a 2-D array with at least
    one sample and one feature.  A list of rows is such an array only when
    all rows have the same length; the result is the number of features. *)
Definition check_array (X : matrix) : result nat :=
  match X with
  | [] => Raise ValueError_no_sample
  | r :: _ =>
      if decide (Forall (λ r', length r' = length r) X) then
        if decide (length r = 0%nat) then Raise ValueError_no_feature
        else Ok (length r)
      else Raise ValueError_shape
  end.

Lemma check_array_Ok X n :
  check_array X = Ok n ↔ X ≠ [] ∧ n ≠ 0%nat ∧ Forall (λ r, length r = n) X.
Proof.
  unfold check_array. destruct X as [|r X'].
  { split; [done|]. by intros [? _]. }
  split.
  - repeat case_decide; naive_solver.
  - intros (_ & Hn & Hall).
    assert (length r = n) as -> by (by inversion Hall).
    rewrite decide_True by done. by rewrite decide_False.
Qed.

(** ** The feature scaler (som.py, lines 25-27 and 144) *)

(** Modelled from the spec: scikit-learn's [MinMaxScaler] is an external
    collaborator whose code is not part of the repository.  The spec (4.1)
    asks for per-column min-max normalisation to a target range together
    with its inverse; the record holds the attributes of the fitted
    estimator. *)
Record MinMaxScaler : Type := {
  feature_range : Qc * Qc;
  data_min_ : vector;
  data_max_ : vector;
  scale_ : vector;
  min_ : vector
}.

(** Column-wise minimum and maximum of a non-empty table. *)
Definition column_min (X : matrix) : vector :=
  match X with [] => [] | r :: X' => foldl (zip_with Qc_min) r X' end.
Definition column_max (X : matrix) : vector :=
  match X with [] => [] | r :: X' => foldl (zip_with Qc_max) r X' end.

(** A constant column (range 0) is scaled by 1. *)
Definition handle_zeros_in_scale (v : vector) : vector :=
  (λ d, if decide (d = 0) then 1 else d) <$> v.

(** Modelled from the spec: [MinMaxScaler(feature_range).fit(X)], that is
    [scale_ = (hi - lo) / data_range] and [min_ = lo - data_min_ * scale_]
    per column. *)
Definition fit (range : Qc * Qc) (X : matrix) : result MinMaxScaler :=
  if decide (range.1 < range.2) then
    _ ← check_array X;
    let lo := column_min X in
    let hi := column_max X in
    let data_range := zip_with Qcminus hi lo in
    let scale := (λ d, (range.2 - range.1) / d) <$>
                   handle_zeros_in_scale data_range in
    Ok {| feature_range := range;
          data_min_ := lo;
          data_max_ := hi;
          scale_ := scale;
          min_ := zip_with (λ m s, range.1 - m * s) lo scale |}
  else Raise ValueError_feature_range.

(** Modelled from the spec: the transform and its inverse on one row,
    [x * scale_ + min_] and [(x - min_) / scale_]. *)
Definition transform_row (sc : MinMaxScaler) (r : vector) : vector :=
  zip_with Qcplus (zip_with Qcmult r (scale_ sc)) (min_ sc).
Definition inverse_transform_row (sc : MinMaxScaler) (r : vector) : vector :=
  zip_with Qcdiv (zip_with Qcminus r (min_ sc)) (scale_ sc).

(** Both directions validate their input and refuse a row whose width is
    not the fitted number of features (the broadcast fails). *)
Definition check_features (sc : MinMaxScaler) (X : matrix) : result unit :=
  n ← check_array X;
  if decide (n = length (scale_ sc)) then Ok () else Raise ValueError_shape.

(** Modelled from the spec: [sc.transform(X)], [sc.inverse_transform(X)]
    and [sc.fit_transform(X)] on a table. *)
Definition transform (sc : MinMaxScaler) (X : matrix) : result matrix :=
  _ ← check_features sc X; Ok (transform_row sc <$> X).
Definition inverse_transform (sc : MinMaxScaler) (X : matrix) : result matrix :=
  _ ← check_features sc X; Ok (inverse_transform_row sc <$> X).

Definition fit_transform (range : Qc * Qc) (X : matrix)
  : result (MinMaxScaler * matrix) :=
  sc ← fit range X; Xs ← transform sc X; Ok (sc, Xs).

(** *** Shape and non-degeneracy of a fitted scaler *)

Lemma foldl_zip_with_length (f : Qc → Qc → Qc) (X : matrix) (r : vector) n :
  length r = n → Forall (λ r', length r' = n) X →
  length (foldl (zip_with f) r X) = n.
Proof.
  revert r. induction X as [|r' X IH]; intros r Hr HX; simpl; [done|].
  inversion_clear HX as [|?? Hr' HX']. apply IH; [|done].
  rewrite length_zip_with. lia.
Qed.

(** A scaler is well formed for width [n] when its vectors have that length
    and no scale factor vanishes. *)
Definition fitted (sc : MinMaxScaler) (n : nat) : Prop :=
  length (scale_ sc) = n ∧ length (min_ sc) = n ∧ Forall (λ s, s ≠ 0) (scale_ sc).

Lemma Qcdiv_nonzero (a b : Qc) : a ≠ 0 → b ≠ 0 → a / b ≠ 0.
Proof.
  intros Ha Hb Hdiv. apply Ha.
  replace a with (a / b * b) by (field; exact Hb).
  rewrite Hdiv. ring.
Qed.

Lemma fit_fitted range X sc :
  fit range X = Ok sc →
  ∃ n, check_array X = Ok n ∧ fitted sc n ∧ feature_range sc = range.
Proof.
  unfold fit. case_decide as Hrange; [|done].
  destruct (check_array X) as [n|e] eqn:Hchk; simpl; [|done].
  intros [= <-]. exists n. split; [done|].
  apply check_array_Ok in Hchk as (Hne & Hn & Hall).
  destruct X as [|r X']; [done|]. inversion_clear Hall as [|?? Hr HX'].
  assert (length (column_min (r :: X')) = n) as Hlo
    by (by apply foldl_zip_with_length).
  assert (length (column_max (r :: X')) = n) as Hhi
    by (by apply foldl_zip_with_length).
  unfold fitted; cbn [scale_ min_ feature_range].
  split_and!; [| |apply list.Forall_forall|done].
  - unfold handle_zeros_in_scale.
    rewrite !length_fmap, length_zip_with. lia.
  - unfold handle_zeros_in_scale.
    rewrite length_zip_with, !length_fmap, length_zip_with. lia.
  - intros s Hs. unfold handle_zeros_in_scale in Hs.
    apply list_elem_of_fmap in Hs as (d' & -> & Hd').
    apply list_elem_of_fmap in Hd' as (d & -> & _).
    apply Qcdiv_nonzero.
    + intros Heq. apply (Qclt_not_eq _ _ Hrange). symmetry.
      replace (range.2) with (range.2 - range.1 + range.1) by ring.
      rewrite Heq. ring.
    + case_decide; [done|done].
Qed.

Lemma inverse_transform_row_transform_row sc n (r : vector) :
  fitted sc n → length r = n →
  inverse_transform_row sc (transform_row sc r) = r.
Proof.
  unfold fitted, inverse_transform_row, transform_row.
  destruct sc as [rg lo hi scale mins]; simpl.
  intros (Hs & Hm & Hnz) <-.
  revert scale mins Hs Hm Hnz.
  induction r as [|x r IH]; intros [|s scale] [|m mins] Hs Hm Hnz;
    simpl in *; try discriminate; [done|].
  inversion_clear Hnz as [|?? Hs0 Hnz']. f_equal.
  - field. exact Hs0.
  - apply IH; [congruence|congruence|done].
Qed.

(** ** The trained map (som.py, lines 42-52, 95, 129 and 132) *)

(** The script builds the map with [x = 10, y = 10]. *)
Definition grid_x : nat := 10.
Definition grid_y : nat := 10.

Abbreviation cell := (nat * nat)%type.

(** Modelled from the spec: MiniSom is an external collaborator and its
    training is not modelled.  A trained map is whatever answers the
    queries of spec 4.2: for a sample, the activation of every prototype
    (its distance to the sample), and for every cell the normalised mean
    distance to the neighbouring prototypes. *)
Record MiniSom : Type := {
  activation_map : vector → nat → nat → Qc;
  distance_map : nat → nat → Qc
}.

(** External ([numpy.argmin]): the index of the first occurrence of the
    minimum. *)
Fixpoint argmin_from (l : list Qc) (k best : nat) (m : Qc) : nat :=
  match l with
  | [] => best
  | v :: l' =>
      if decide (v < m) then argmin_from l' (S k) k v
      else argmin_from l' (S k) best m
  end.

Definition argmin (l : list Qc) : nat :=
  match l with [] => 0%nat | v :: l' => argmin_from l' 1 0 v end.

(** External ([numpy.unravel_index]): a flat C-order index as a cell of
    the grid. *)
Definition unravel_index (k : nat) : cell := (k / grid_y, k mod grid_y)%nat.

Lemma argmin_from_spec l k best m :
  let i := argmin_from l k best m in
  (i = best ∧ Forall (λ v, m ≤ v) l) ∨
  ((k ≤ i < k + length l)%nat ∧
   ∃ v, l !! (i - k)%nat = Some v ∧ v < m ∧ Forall (λ v', v ≤ v') l).
Proof.
  revert k best m. induction l as [|v l IH]; intros k best m; simpl.
  { left. by split. }
  case_decide as Hlt.
  - right. destruct (IH (S k) k v) as [[Hi Hall]|(Hi & v' & Hv' & Hlt' & Hall)].
    + rewrite Hi. split; [lia|]. exists v. rewrite Nat.sub_diag.
      split_and!; [done|done|]. constructor; [apply Qcle_refl|done].
    + split; [lia|]. exists v'.
      replace (argmin_from l (S k) k v - k)%nat
        with (S (argmin_from l (S k) k v - S k)) by lia.
      split_and!; [done|by eapply Qclt_trans|].
      constructor; [by apply Qclt_le_weak|done].
  - apply Qcnot_lt_le in Hlt.
    destruct (IH (S k) best m) as [[Hi Hall]|(Hi & v' & Hv' & Hlt' & Hall)].
    + left. split; [done|]. by constructor.
    + right. split; [lia|]. exists v'.
      replace (argmin_from l (S k) best m - k)%nat
        with (S (argmin_from l (S k) best m - S k)) by lia.
      split_and!; [done|done|].
      constructor; [|done].
      apply Qclt_le_weak. by eapply Qclt_le_trans.
Qed.

Lemma argmin_spec (l : list Qc) :
  l ≠ [] → ∃ v, l !! argmin l = Some v ∧ Forall (λ v', v ≤ v') l.
Proof.
  destruct l as [|m l]; [done|]. intros _. simpl.
  destruct (argmin_from_spec l 1 0 m) as [[-> Hall]|(Hi & v & Hv & Hlt & Hall)].
  - exists m. split; [done|]. constructor; [apply Qcle_refl|done].
  - exists v. destruct (argmin_from l 1 0 m) as [|i]; [lia|].
    simpl in *. rewrite Nat.sub_0_r in Hv. split; [done|].
    constructor; [by apply Qclt_le_weak|done].
Qed.

Section som.
Context (som : MiniSom).

(** [activation_map.argmin()] scans the map flattened in C order. *)
Definition activation_flat (x : vector) : list Qc :=
  (λ k, activation_map som x (k / grid_y) (k mod grid_y)) <$>
    seq 0 (grid_x * grid_y).

(** Modelled from the spec: [som.winner(x)], the cell of the nearest
    prototype, the first one in C order among equals. *)
Definition winner (x : vector) : cell :=
  unravel_index (argmin (activation_flat x)).

(** Modelled from the spec: [som.win_map(data)], the reverse index from
    cells to the rows they win: a [defaultdict(list)] filled by
    [winmap[self.winner(x)].append(x)] for each row in order, so that a
    cell without rows reads as the empty list. *)
Definition win_map (data : matrix) : gmap cell (list vector) :=
  foldl (λ winmap x, <[winner x := winmap !!! winner x ++ [x]]> winmap)
        ∅ data.

Lemma activation_flat_length x :
  length (activation_flat x) = (grid_x * grid_y)%nat.
Proof. unfold activation_flat. by rewrite length_fmap, length_seq. Qed.

Lemma activation_flat_winner x :
  ∃ v, activation_flat x !! argmin (activation_flat x) = Some v ∧
       Forall (λ v', v ≤ v') (activation_flat x).
Proof.
  apply argmin_spec. intros Hnil.
  pose proof (activation_flat_length x) as Hlen.
  rewrite Hnil in Hlen. discriminate Hlen.
Qed.

Lemma winner_in_grid x : ((winner x).1 < grid_x ∧ (winner x).2 < grid_y)%nat.
Proof.
  unfold winner, unravel_index. cbn [fst snd].
  destruct (activation_flat_winner x) as (v & Hv & _).
  apply lookup_lt_Some in Hv. rewrite activation_flat_length in Hv.
  split.
  - apply Nat.Div0.div_lt_upper_bound. by rewrite Nat.mul_comm.
  - by apply Nat.mod_upper_bound.
Qed.

Lemma winner_nearest x i j :
  (i < grid_x)%nat → (j < grid_y)%nat →
  activation_map som x (winner x).1 (winner x).2 ≤ activation_map som x i j.
Proof.
  intros Hi Hj. unfold winner, unravel_index. cbn [fst snd].
  destruct (activation_flat_winner x) as (v & Hv & Hall).
  set (w := argmin (activation_flat x)) in *.
  assert (v = activation_map som x (w / grid_y) (w mod grid_y)) as <-.
  { unfold activation_flat in Hv. rewrite list_lookup_fmap in Hv.
    destruct (seq _ _ !! w) as [k|] eqn:Hk; [|done].
    apply lookup_seq in Hk as [-> _]. by injection Hv. }
  rewrite list.Forall_forall in Hall. apply Hall.
  apply list_elem_of_fmap. exists (i * grid_y + j)%nat.
  assert (grid_y ≠ 0)%nat as Hy by done.
  split.
  - f_equal.
    + rewrite Nat.div_add_l by done. rewrite Nat.div_small by done. lia.
    + rewrite Nat.add_comm, Nat.Div0.mod_add. by rewrite Nat.mod_small.
  - apply elem_of_seq. split; [lia|]. rewrite Nat.add_0_l.
    apply Nat.lt_le_trans with (i * grid_y + grid_y)%nat; [lia|].
    change (i * grid_y + grid_y)%nat with (i * grid_y + 1 * grid_y)%nat.
    rewrite <- Nat.mul_add_distr_r. apply Nat.mul_le_mono_r. lia.
Qed.

Lemma win_map_lookup (data : matrix) (c : cell) :
  win_map data !!! c = filter (λ x, winner x = c) data.
Proof.
  unfold win_map.
  enough (∀ (m : gmap cell (list vector)),
    foldl (λ winmap x, <[winner x := winmap !!! winner x ++ [x]]> winmap)
          m data !!! c = m !!! c ++ filter (λ x, winner x = c) data) as H.
  { rewrite H. by rewrite lookup_total_empty. }
  induction data as [|x data IH]; intros m.
  { simpl. by rewrite app_nil_r. }
  rewrite filter_cons. cbn [foldl]. rewrite IH. case_decide as Hw.
  - subst c. rewrite lookup_total_insert_eq. by rewrite <- app_assoc.
  - by rewrite lookup_total_insert_ne.
Qed.
End som.

(** ** Finding the frauds (som.py, lines 129-150) *)

(** External ([np.concatenate] along axis 0): refuses an empty sequence,
    and arrays whose rows differ in width. *)
Definition width (a : matrix) : nat :=
  match a with [] => 0%nat | r :: _ => length r end.

Definition np_concatenate (arrays : list matrix) : result matrix :=
  match arrays with
  | [] => Raise ValueError_concatenate
  | a :: _ =>
      if decide (Forall (λ r, length r = width a) (concat arrays))
      then Ok (concat arrays)
      else Raise ValueError_shape
  end.

Section frauds.
Context (som : MiniSom) (sc : MinMaxScaler).
Context (mappings : gmap cell (list vector)).

(** [dist = som.distance_map().T] (line 132) *)
Definition dist (i j : nat) : Qc := distance_map som j i.

(** The body of the inner loop (lines 141-146), on the pair of lists
    [(winning_nodes, frauds)]; the [print] is left out. *)
Definition collect_body (thr : Qc) (i j : nat)
    (st : list cell * list matrix) : result (list cell * list matrix) :=
  if decide (thr < dist i j) then
    let node_map := mappings !!! (j, i) in
    customers ← inverse_transform sc node_map;
    Ok (st.1 ++ [(j, i)], st.2 ++ [customers])
  else Ok st.

(** [for i in range(10): for j in range(10): ...] (lines 135-146) *)
Definition collect_loop (thr : Qc) : result (list cell * list matrix) :=
  for_each (λ i, for_each (λ j, collect_body thr i j) (seq 0 10))
           (seq 0 10) ([], []).

(** The script from [winning_nodes = []] to the final [np.concatenate]
    (lines 135-150): the selected cells and the table of flagged
    customers. *)
Definition find_frauds (thr : Qc) : result (list cell * matrix) :=
  st ← collect_loop thr;
  frauds ← np_concatenate st.2;
  Ok (st.1, frauds).
End frauds.

(** The threshold written in the script (line 141). *)
Definition fraud_threshold : Qc := Q2Qc (95 # 100).

(** *** The loop as a selection over the index pairs *)

(** The index pairs [(i, j)] of [dist] in row-major order: all of row 0
    from left to right, then row 1, and so on. *)
Definition row_major : list (nat * nat) :=
  i ← seq 0 10; (λ j, (i, j)) <$> seq 0 10.

Lemma for_each_nested {A B S} (body : A → B → S → result S) la lb s :
  for_each (λ a, for_each (body a) lb) la s =
  for_each (λ p, body p.1 p.2) (a ← la; (λ b, (a, b)) <$> lb) s.
Proof.
  revert s. induction la as [|a la IH]; intros s; [done|].
  cbn [for_each mbind list_bind]. rewrite for_each_app.
  assert (∀ s', for_each (body a) lb s' =
                for_each (λ p, body p.1 p.2) ((λ b, (a, b)) <$> lb) s') as ->.
  { clear. induction lb as [|b lb IH]; intros s'; [done|].
    simpl. destruct (body a b s'); simpl; [apply IH|done]. }
  destruct (for_each _ _ s); simpl; [apply IH|done].
Qed.

Section frauds_spec.
Context (som : MiniSom) (sc : MinMaxScaler).
Context (mappings : gmap cell (list vector)).

(** An index pair is selected when its entry of [dist] exceeds the
    threshold; the cell it stands for has the coordinates swapped. *)
Definition selected (thr : Qc) (p : nat * nat) : Prop :=
  thr < dist som p.1 p.2.
Definition cell_of (p : nat * nat) : cell := (p.2, p.1).

#[global] Instance selected_dec thr p : Decision (selected thr p).
Proof. unfold selected. apply _. Defined.

Definition flagged_cells (thr : Qc) : list cell :=
  cell_of <$> filter (selected thr) row_major.

(** The customers of one cell, back in the original feature space. *)
Definition customers_of (c : cell) (a : matrix) : Prop :=
  inverse_transform sc (mappings !!! c) = Ok a.

Lemma collect_body_selected thr i j st :
  selected thr (i, j) →
  collect_body som sc mappings thr i j st =
  customers ← inverse_transform sc (mappings !!! (j, i));
  Ok (st.1 ++ [(j, i)], st.2 ++ [customers]).
Proof. intros Hsel. unfold collect_body. by rewrite decide_True. Qed.

Lemma collect_body_not_selected thr i j st :
  ¬ selected thr (i, j) → collect_body som sc mappings thr i j st = Ok st.
Proof. intros Hsel. unfold collect_body. by rewrite decide_False. Qed.

Lemma for_each_collect thr (l : list (nat * nat)) st st' :
  for_each (λ p, collect_body som sc mappings thr p.1 p.2) l st = Ok st' ↔
  ∃ fr, Forall2 customers_of (cell_of <$> filter (selected thr) l) fr ∧
        st' = (st.1 ++ (cell_of <$> filter (selected thr) l), st.2 ++ fr).
Proof.
  revert st. induction l as [|[i j] l IH]; intros [wn fr0].
  { simpl. split.
    - intros [= <-]. exists []. split; [constructor|].
      by rewrite !app_nil_r.
    - intros (fr & Hfr & ->). inversion Hfr. by rewrite !app_nil_r. }
  cbn [for_each fst snd]. rewrite filter_cons.
  destruct (decide (selected thr (i, j))) as [Hsel|Hsel].
  - rewrite collect_body_selected by done.
    cbn [fmap list_fmap fst snd]. change (cell_of (i, j)) with (j, i).
    destruct (inverse_transform sc (mappings !!! (j, i))) as [a|e] eqn:Ha.
    + cbn [mbind result_bind]. rewrite IH. cbn [fst snd]. split.
      * intros (fr & Hfr & ->). exists (a :: fr). split.
        { constructor; [exact Ha|exact Hfr]. }
        by rewrite <- !app_assoc.
      * intros (fr & Hfr & ->).
        inversion Hfr as [|?? a' fr' Ha' Hfr' Heq1 Heq2]; subst.
        unfold customers_of in Ha'. rewrite Ha in Ha'. injection Ha' as <-.
        exists fr'. split; [done|]. by rewrite <- !app_assoc.
    + cbn [mbind result_bind]. split; [done|]. intros (fr & Hfr & _).
      inversion Hfr as [|?? a' fr' Ha' Hfr' Heq1 Heq2]; subst.
      unfold customers_of in Ha'. by rewrite Ha in Ha'.
  - rewrite collect_body_not_selected by done.
    cbn [mbind result_bind]. apply IH.
Qed.

(** The loop of the script selects the flagged cells in row-major order
    of their index pairs and collects the customers of each. *)
Lemma collect_loop_spec thr wn fr :
  collect_loop som sc mappings thr = Ok (wn, fr) ↔
  wn = flagged_cells thr ∧ Forall2 customers_of (flagged_cells thr) fr.
Proof.
  unfold collect_loop.
  rewrite (for_each_nested (collect_body som sc mappings thr)).
  fold row_major. rewrite for_each_collect. cbn [fst snd app].
  fold (flagged_cells thr). split.
  - intros (fr' & Hfr & [= -> ->]). done.
  - intros [-> Hfr]. by exists fr.
Qed.
End frauds_spec.

(** *** Inverse scaling of a cell and the final concatenation *)

Lemma inverse_transform_Ok sc (X a : matrix) :
  inverse_transform sc X = Ok a ↔
  check_features sc X = Ok () ∧ a = inverse_transform_row sc <$> X.
Proof.
  unfold inverse_transform.
  destruct (check_features sc X) as [[]|e]; simpl.
  - split; [by intros [= <-]|by intros [_ ->]].
  - split; [done|by intros [? _]].
Qed.

Lemma check_features_Ok sc (X : matrix) :
  check_features sc X = Ok () ↔
  X ≠ [] ∧ length (scale_ sc) ≠ 0%nat ∧
  Forall (λ r, length r = length (scale_ sc)) X.
Proof.
  unfold check_features. split.
  - destruct (check_array X) as [n|e] eqn:Hchk; simpl; [|done].
    case_decide as Hn; [|done]. intros _. subst n.
    by apply check_array_Ok in Hchk.
  - intros (Hne & Hn & Hall).
    rewrite (proj2 (check_array_Ok X (length (scale_ sc)))) by done.
    simpl. by rewrite decide_True.
Qed.

(** The width of what [inverse_transform] returns. *)
Definition out_width (sc : MinMaxScaler) : nat :=
  length (scale_ sc) `min` length (min_ sc).

Lemma inverse_transform_shape sc (X a : matrix) :
  inverse_transform sc X = Ok a →
  a ≠ [] ∧ Forall (λ r, length r = out_width sc) a.
Proof.
  rewrite inverse_transform_Ok, check_features_Ok.
  intros ((Hne & _ & Hall) & ->). split.
  - by destruct X.
  - apply Forall_fmap. eapply list.Forall_impl; [exact Hall|].
    intros r Hr. simpl in *. unfold inverse_transform_row, out_width.
    rewrite !length_zip_with. lia.
Qed.

Lemma np_concatenate_uniform (arrays : list matrix) w :
  arrays ≠ [] →
  Forall (λ a, a ≠ [] ∧ Forall (λ r, length r = w) a) arrays →
  np_concatenate arrays = Ok (concat arrays).
Proof.
  intros Hne Hall. destruct arrays as [|a arrays]; [done|].
  unfold np_concatenate. rewrite decide_True; [done|].
  assert (width a = w) as ->.
  { inversion_clear Hall as [|?? [Ha Hrows] _].
    destruct a as [|r a]; [done|]. by inversion Hrows. }
  apply Forall_concat. eapply list.Forall_impl; [exact Hall|]. by intros ? [_ ?].
Qed.

Lemma np_concatenate_Ok (arrays : list matrix) t :
  np_concatenate arrays = Ok t → arrays ≠ [] ∧ t = concat arrays.
Proof.
  unfold np_concatenate. destruct arrays as [|a arrays]; [done|].
  case_decide; [|done]. by intros [= <-].
Qed.

Section find_frauds_spec.
Context (som : MiniSom) (sc : MinMaxScaler).
Context (mappings : gmap cell (list vector)).

(** The table the script builds when nothing raises: the customers of
    the flagged cells, cell after cell, inverse-scaled. *)
Definition cell_customers (c : cell) : matrix :=
  inverse_transform_row sc <$> mappings !!! c.
Definition flagged_table (thr : Qc) : matrix :=
  concat (cell_customers <$> flagged_cells som thr).

Lemma customers_of_cells (cells : list cell) (fr : list matrix) :
  Forall2 (customers_of sc mappings) cells fr ↔
  Forall (λ c, check_features sc (mappings !!! c) = Ok ()) cells ∧
  fr = cell_customers <$> cells.
Proof.
  revert fr. induction cells as [|c cells IH]; intros fr.
  { split.
    - intros Hfr. inversion Hfr. by split.
    - intros [_ ->]. constructor. }
  split.
  - intros Hfr. inversion Hfr as [|?? a fr' Ha Hfr' Heq1 Heq2]; subst.
    apply IH in Hfr' as [Hchk ->].
    apply inverse_transform_Ok in Ha as [Hc ->].
    split; [by constructor|done].
  - intros [Hchk ->]. inversion_clear Hchk as [|?? Hc Hchk'].
    cbn [fmap list_fmap]. constructor.
    + by apply inverse_transform_Ok.
    + apply IH. by split.
Qed.

Lemma find_frauds_spec thr wn t :
  find_frauds som sc mappings thr = Ok (wn, t) ↔
  wn = flagged_cells som thr ∧ wn ≠ [] ∧
  Forall (λ c, check_features sc (mappings !!! c) = Ok ()) wn ∧
  t = flagged_table thr.
Proof.
  unfold find_frauds. rewrite bind_Ok. split.
  - intros ([wn' fr] & Hloop & Hcat). cbn [fst snd] in Hcat.
    apply collect_loop_spec in Hloop as [-> Hfr].
    apply bind_Ok in Hcat as (t' & Hcat & [= <- <-]).
    apply np_concatenate_Ok in Hcat as [Hne ->].
    apply customers_of_cells in Hfr as [Hchk ->].
    split_and!; [done| |done|done].
    intros Hnil. rewrite Hnil in Hne. by apply Hne.
  - intros (-> & Hne & Hchk & ->).
    set (fr := cell_customers <$> flagged_cells som thr).
    assert (Forall2 (customers_of sc mappings) (flagged_cells som thr) fr)
      as Hfr by (by apply customers_of_cells).
    exists (flagged_cells som thr, fr). split.
    { by apply collect_loop_spec. }
    cbn [fst snd].
    rewrite (np_concatenate_uniform fr (out_width sc)); [done| |].
    + subst fr. by destruct (flagged_cells som thr).
    + clear -Hfr. induction Hfr as [|c a cells fr Ha _ IH]; constructor.
      * by eapply inverse_transform_shape.
      * apply IH.
Qed.
End find_frauds_spec.

(** ** The script as a whole *)

(** A row of [Credit_Card_Applications.csv]: every column but the last,
    and the last column (the approval class). *)
Record application : Type := {
  attributes : vector;
  approved : Z
}.

(** Python list indexing: negative indices count from the end. *)
Definition py_index {A} (l : list A) (i : Z) : result A :=
  let n := Z.of_nat (length l) in
  let k := if decide (i < 0)%Z then (i + n)%Z else i in
  if decide (0 ≤ k < n)%Z then
    match l !! Z.to_nat k with Some a => Ok a | None => Raise IndexError end
  else Raise IndexError.

(** Indexing a one-dimensional array with a loop counter. *)
Definition np_index {A} (a : list A) (i : nat) : result A :=
  match a !! i with Some v => Ok v | None => Raise IndexError end.

Definition markers : list ascii := ["o"; "s"]%char.
Definition colors : list ascii := ["r"; "g"]%char.

(** What one call of [plot] draws. *)
Record artist : Type := {
  at_x : Qc;
  at_y : Qc;
  marker : ascii;
  markeredgecolor : ascii
}.

Definition Qc_of_nat (n : nat) : Qc := Q2Qc (inject_Z (Z.of_nat n)).

Section script.
Context (som : MiniSom).

(** The body of [for i, x in enumerate(X)]. *)
Definition plot_body (y : list Z) (ix : nat * vector) (fig : list artist)
  : result (list artist) :=
  let w := winner som ix.2 in
  yi ← np_index y ix.1;
  m ← py_index markers yi;
  c ← py_index colors yi;
  Ok (fig ++ [{| at_x := Qc_of_nat w.1 + Q2Qc (1 # 2);
                 at_y := Qc_of_nat w.2 + Q2Qc (1 # 2);
                 marker := m;
                 markeredgecolor := c |}]).

(** From the split of the dataset to the table of frauds.  The map is
    the one trained on the scaled [X]; the script's outputs are the
    markers drawn on the figure, the winning nodes and [frauds]. *)
Definition som_script (dataset : list application)
  : result (list artist * (list cell * matrix)) :=
  let X := attributes <$> dataset in
  let y := approved <$> dataset in
  scX ← fit_transform (0, 1) X;
  let sc := scX.1 in
  let X := scX.2 in
  fig ← for_each (plot_body y) (imap pair X) [];
  let mappings := win_map som X in
  frauds ← find_frauds som sc mappings fraud_threshold;
  Ok (fig, frauds).

(** The mean inter-neuron distance of a cell. *)
Definition mid (c : cell) : Qc := distance_map som c.1 c.2.
End script.

(** ** The collection stage on a store of arrays

    NumPy arrays are mutable objects, and the rows the reverse index holds
    are views into [X], not copies.  To speak about what the stage writes,
    the same code is modelled once more over a store of array objects:
    allocation yields a fresh location, an in-place operator overwrites the
    array at its location, and a row view reads through to its base array.
    The refinement lemmas below tie this model to the functions above. *)

Abbreviation loc := positive.

Inductive ndarray : Type :=
| Floats (a : matrix)       (* a 2-D array of floats *)
| Ints (v : list Z).        (* a 1-D array of integers *)

Abbreviation store := (gmap loc ndarray).

(** [X[k]]: the base array and the row. *)
Abbreviation view := (loc * nat)%type.

Definition state (A : Type) : Type := store → result (A * store).

#[global] Instance state_ret : MRet state := λ A a h, Ok (a, h).
#[global] Instance state_bind : MBind state := λ A B f m h,
  match m h with Ok (a, h') => f a h' | Raise e => Raise e end.

Definition lift {A} (r : result A) : state A := λ h,
  match r with Ok a => Ok (a, h) | Raise e => Raise e end.

Definition new_array (a : ndarray) : state loc := λ h,
  let l := fresh (dom h) in Ok (l, <[l := a]> h).

Definition read_array (l : loc) : state matrix := λ h,
  match h !! l with
  | Some (Floats a) => Ok (a, h)
  | _ => Raise TypeError
  end.

(** An in-place operator ([a -= v], [a /= v]) on the array at [l]. *)
Definition update_array (l : loc) (f : matrix → matrix) : state unit := λ h,
  match h !! l with
  | Some (Floats a) => Ok ((), <[l := Floats (f a)]> h)
  | _ => Raise TypeError
  end.

Definition read_view (v : view) : state vector :=
  a ← read_array v.1; lift (np_index a v.2).

(** [a[r][c]] *)
Definition read_entry (l : loc) (r c : nat) : state Qc :=
  a ← read_array l; row ← lift (np_index a r); lift (np_index row c).

Fixpoint for_each_st {A S : Type} (body : A → S → state S) (l : list A)
    (s : S) : state S :=
  match l with
  | [] => mret s
  | a :: l' => s' ← body a s; for_each_st body l' s'
  end.

(** Building one array out of a list of rows or of arrays reads each of
    them in turn. *)
Definition read_views (vs : list view) : state matrix :=
  for_each_st (λ v rows, r ← read_view v; mret (rows ++ [r])) vs [].
Definition read_arrays (ls : list loc) : state (list matrix) :=
  for_each_st (λ l arrays, a ← read_array l; mret (arrays ++ [a])) ls [].

Section store.
Context (som : MiniSom) (sc : MinMaxScaler).

(** [som.win_map(X)] keeps, for every cell, the views of its rows:
    iterating over [X] yields the view of row 0, of row 1, and so on. *)
Definition view_map (lX : loc) (X : matrix) : gmap cell (list view) :=
  foldl (λ winmap kx,
           <[winner som kx.2 :=
               winmap !!! winner som kx.2 ++ [(lX, kx.1)]]> winmap)
        ∅ (imap pair X).
Definition win_map_st (lX : loc) : state (gmap cell (list view)) :=
  X ← read_array lX; mret (view_map lX X).

(** [som.distance_map()] returns a new array. *)
Definition um_matrix : matrix :=
  (λ x, distance_map som x <$> seq 0 grid_y) <$> seq 0 grid_x.
Definition distance_map_st : state loc := new_array (Floats um_matrix).

(** [sc.inverse_transform(node_map)]: the validation copies the rows
    into a new array, which the two in-place operators then overwrite. *)
Definition inverse_transform_st (node_map : list view) : state loc :=
  rows ← read_views node_map;
  _ ← lift (check_features sc rows);
  l ← new_array (Floats rows);
  _ ← update_array l (fmap (λ r, zip_with Qcminus r (min_ sc)));
  _ ← update_array l (fmap (λ r, zip_with Qcdiv r (scale_ sc)));
  mret l.

(** [dist] is the transposed view of the array at [um]:
    [dist[i][j]] reads [um[j][i]]. *)
Definition collect_body_st (mappings : gmap cell (list view)) (um : loc)
    (thr : Qc) (i j : nat) (st : list cell * list loc)
  : state (list cell * list loc) :=
  d ← read_entry um j i;
  if decide (thr < d) then
    customers ← inverse_transform_st (mappings !!! (j, i));
    mret (st.1 ++ [(j, i)], st.2 ++ [customers])
  else mret st.

Definition np_concatenate_st (ls : list loc) : state loc :=
  arrays ← read_arrays ls;
  t ← lift (np_concatenate arrays);
  new_array (Floats t).

(** Lines 129-150 with [X] at location [lX]: the result is the list of
    winning nodes and the location of the table [frauds]. *)
Definition find_frauds_st (lX : loc) (thr : Qc) : state (list cell * loc) :=
  mappings ← win_map_st lX;
  um ← distance_map_st;
  st ← for_each_st
         (λ i, for_each_st (λ j, collect_body_st mappings um thr i j)
                           (seq 0 10))
         (seq 0 10) ([], []);
  frauds ← np_concatenate_st st.2;
  mret (st.1, frauds).
End store.

(** ** A small run

    Three applications with two attributes each, and a map whose prototype
    at cell [(x, y)] is the point [(x/9, y/9)] of the unit square, the
    activation being the squared distance to the prototype.  After scaling
    the applications sit on the prototypes of the cells [(2, 0)], [(0, 1)]
    and [(9, 9)], which are given the three largest mean inter-neuron
    distances: 1, 0.96 and 0.9. *)
Module Toy.
Definition q (n d : Z) : Qc := Q2Qc (Qmake n (Z.to_pos d)).

Definition dataset : list application :=
  [ {| attributes := [q 2 1; q 0 1]; approved := 0 |};
    {| attributes := [q 0 1; q 1 1]; approved := 1 |};
    {| attributes := [q 9 1; q 9 1]; approved := 1 |} ].

(** The same attributes, the labels flipped. *)
Definition relabelled : list application :=
  [ {| attributes := [q 2 1; q 0 1]; approved := 1 |};
    {| attributes := [q 0 1; q 1 1]; approved := 0 |};
    {| attributes := [q 9 1; q 9 1]; approved := 0 |} ].

Definition sq (a : Qc) : Qc := a * a.

Definition activation (x : vector) (i j : nat) : Qc :=
  match x with
  | [a; b] => sq (a - Qc_of_nat i / q 9 1) + sq (b - Qc_of_nat j / q 9 1)
  | _ => 0
  end.

Definition um (x y : nat) : Qc :=
  if decide ((x, y) = (2, 0)%nat) then 1
  else if decide ((x, y) = (0, 1)%nat) then q 24 25
  else if decide ((x, y) = (9, 9)%nat) then q 9 10
  else q 1 2.

Definition som : MiniSom :=
  {| activation_map := activation; distance_map := um |}.

(** A map without any outlying cell. *)
Definition flat_som : MiniSom :=
  {| activation_map := activation; distance_map := λ _ _, q 1 2 |}.

Definition X : matrix := attributes <$> dataset.
Definition y : list Z := approved <$> dataset.

Definition unfitted : MinMaxScaler :=
  {| feature_range := (0, 1); data_min_ := []; data_max_ := [];
     scale_ := []; min_ := [] |}.

(** The fitted scaler and the scaled table. *)
Definition sc : MinMaxScaler :=
  match fit_transform (0, 1) X with Ok p => p.1 | Raise _ => unfitted end.
Definition Xs : matrix :=
  match fit_transform (0, 1) X with Ok p => p.2 | Raise _ => [] end.

(** What the script draws and returns. *)
Definition fig : list artist :=
  match som_script som dataset with Ok p => p.1 | Raise _ => [] end.
Definition winning_nodes : list cell :=
  match som_script som dataset with Ok p => p.2.1 | Raise _ => [] end.
Definition frauds : matrix :=
  match som_script som dataset with Ok p => p.2.2 | Raise _ => [] end.

(** The selection at the lower threshold 0.85. *)
Definition winning_nodes_085 : list cell :=
  match find_frauds som sc (win_map som Xs) (q 85 100) with
  | Ok p => p.1 | Raise _ => [] end.
Definition frauds_085 : matrix :=
  match find_frauds som sc (win_map som Xs) (q 85 100) with
  | Ok p => p.2 | Raise _ => [] end.

(** A store with the scaled [X] at location 1 and [y] at location 2, and
    what a run of the stage returns and leaves in it. *)
Definition h0 : store :=
  <[2%positive := Ints y]> (<[1%positive := Floats Xs]> ∅).
Definition table_loc : loc :=
  match find_frauds_st som sc 1%positive fraud_threshold h0 with
  | Ok p => p.1.2 | Raise _ => 1%positive end.
Definition h1 : store :=
  match find_frauds_st som sc 1%positive fraud_threshold h0 with
  | Ok p => p.2 | Raise _ => ∅ end.
End Toy.

(** * Properties *)

(** ** Lists: filters, concatenations, sublists *)

Lemma filter_fmap {A B} (f : A → B) (P : B → Prop) `{!∀ b, Decision (P b)}
    (l : list A) :
  filter P (f <$> l) = f <$> filter (λ a, P (f a)) l.
Proof.
  induction l as [|a l IH]; [done|].
  cbn [fmap list_fmap]. rewrite !filter_cons.
  case_decide; cbn [fmap list_fmap]; by rewrite IH.
Qed.

Lemma fmap_concat {A B} (f : A → B) (ls : list (list A)) :
  f <$> concat ls = concat (fmap (M:=list) f <$> ls).
Proof.
  induction ls as [|l ls IH]; [done|].
  simpl. by rewrite fmap_app, IH.
Qed.

Lemma filter_split_cell {A} (f : A → cell) (c : cell) (cs : list cell)
    (l : list A) :
  c ∉ cs →
  filter (λ x, f x = c) l ++ filter (λ x, f x ∈ cs) l ≡ₚ
  filter (λ x, f x ∈ c :: cs) l.
Proof.
  intros Hc. induction l as [|x l IH]; [done|].
  rewrite !filter_cons.
  destruct (decide (f x = c)) as [Heq|Hne].
  - rewrite decide_False by (by rewrite Heq).
    rewrite decide_True by (rewrite Heq; left).
    simpl. by rewrite IH.
  - destruct (decide (f x ∈ cs)) as [Hin|Hnin].
    + rewrite decide_True by (by right).
      rewrite <- Permutation_middle. by rewrite IH.
    + rewrite decide_False; [exact IH|].
      intros Hin. apply elem_of_cons in Hin as [?|?]; done.
Qed.

Lemma concat_filter_cells {A} (f : A → cell) (cs : list cell) (l : list A) :
  NoDup cs →
  concat ((λ c, filter (λ x, f x = c) l) <$> cs) ≡ₚ filter (λ x, f x ∈ cs) l.
Proof.
  induction 1 as [|c cs Hc _ IH].
  - simpl. induction l as [|x l IHl]; [done|].
    rewrite filter_cons. rewrite decide_False; [exact IHl|]. apply not_elem_of_nil.
  - cbn [fmap list_fmap concat]. rewrite IH. by apply filter_split_cell.
Qed.

Lemma filter_all {A} (P : A → Prop) `{!∀ x, Decision (P x)} (l : list A) :
  (∀ x, P x) → filter P l = l.
Proof.
  intros HP. induction l as [|x l IH]; [done|].
  rewrite filter_cons, decide_True by done. by rewrite IH.
Qed.

Lemma filter_sublist_mono {A} (P Q : A → Prop) `{!∀ x, Decision (P x)}
    `{!∀ x, Decision (Q x)} (l : list A) :
  (∀ x, P x → Q x) → filter P l `sublist_of` filter Q l.
Proof.
  intros HPQ. induction l as [|x l IH]; [done|].
  rewrite !filter_cons. destruct (decide (P x)) as [HP|HP].
  - rewrite decide_True by auto. by constructor.
  - case_decide; [by constructor|done].
Qed.

Lemma concat_sublist {A} (ls1 ls2 : list (list A)) :
  ls1 `sublist_of` ls2 → concat ls1 `sublist_of` concat ls2.
Proof.
  induction 1 as [|l ls1 ls2 _ IH|l ls1 ls2 _ IH]; simpl.
  - done.
  - by apply sublist_app.
  - by apply sublist_inserts_l.
Qed.

(** ** The enumeration of the grid *)

Lemma elem_of_row_major (p : nat * nat) :
  p ∈ row_major ↔ (p.1 < 10 ∧ p.2 < 10)%nat.
Proof.
  unfold row_major. rewrite list_elem_of_bind. split.
  - intros (i & Hp & Hi). apply list_elem_of_fmap in Hp as (j & -> & Hj).
    apply elem_of_seq in Hi, Hj. simpl. lia.
  - intros [Hi Hj]. exists p.1. split.
    + apply list_elem_of_fmap. exists p.2. split; [by destruct p|].
      apply elem_of_seq. lia.
    + apply elem_of_seq. lia.
Qed.

Lemma NoDup_row_major : NoDup row_major.
Proof. apply (bool_decide_unpack _). by vm_compute. Qed.

#[global] Instance cell_of_inj : Inj eq eq cell_of.
Proof. intros [i j] [i' j'] [= -> ->]. done. Qed.

Lemma NoDup_flagged_cells som thr : NoDup (flagged_cells som thr).
Proof.
  unfold flagged_cells. apply NoDup_fmap_2; [apply _|].
  apply list.NoDup_filter, NoDup_row_major.
Qed.

Lemma elem_of_flagged_cells som thr (c : cell) :
  c ∈ flagged_cells som thr ↔
  (c.1 < grid_x ∧ c.2 < grid_y)%nat ∧ thr < mid som c.
Proof.
  unfold flagged_cells. rewrite list_elem_of_fmap. split.
  - intros ([i j] & -> & Hp). apply list_elem_of_filter in Hp as [Hsel Hp].
    apply elem_of_row_major in Hp. unfold grid_x, grid_y. simpl in *.
    split; [lia|exact Hsel].
  - intros [Hc Hthr]. exists (c.2, c.1). split; [by destruct c|].
    apply list_elem_of_filter. split; [exact Hthr|].
    apply elem_of_row_major. unfold grid_x, grid_y in Hc. simpl. lia.
Qed.

Lemma flagged_cells_mono som (t1 t2 : Qc) :
  t2 ≤ t1 → flagged_cells som t1 `sublist_of` flagged_cells som t2.
Proof.
  intros Hle. unfold flagged_cells. apply fmap_sublist.
  apply filter_sublist_mono. intros p Hp. unfold selected in *.
  by eapply Qcle_lt_trans.
Qed.

(** ** The scaler *)

Lemma fit_transform_Ok range (X : matrix) sc Xs :
  fit_transform range X = Ok (sc, Xs) →
  ∃ n, check_array X = Ok n ∧ fitted sc n ∧ Xs = transform_row sc <$> X.
Proof.
  unfold fit_transform. intros H.
  apply bind_Ok in H as (sc' & Hfit & H).
  apply bind_Ok in H as (Xs' & Htr & [= -> ->]).
  apply fit_fitted in Hfit as (n & Hchk & Hsc & _).
  exists n. split_and!; [done|done|].
  unfold transform in Htr. apply bind_Ok in Htr as (_ & _ & [= <-]). done.
Qed.

Lemma round_trip_rows sc n (X : matrix) :
  fitted sc n → Forall (λ r, length r = n) X →
  inverse_transform_row sc <$> (transform_row sc <$> X) = X.
Proof.
  intros Hsc HX. rewrite <- list_fmap_compose.
  rewrite <- (list_fmap_id X) at 2. apply Forall_fmap_ext.
  eapply list.Forall_impl; [exact HX|]. intros r Hr. simpl.
  by eapply inverse_transform_row_transform_row.
Qed.

Lemma transform_row_length sc n (r : vector) :
  fitted sc n → length r = n → length (transform_row sc r) = n.
Proof.
  intros (Hs & Hm & _) Hr. unfold transform_row.
  rewrite !length_zip_with. lia.
Qed.

(** C4. Scaling round trip, in exact arithmetic: once the scaler is fitted
    on the dataset, scaling any of its records and inverting the scaling
    gives the record back, and so inverting the whole scaled table gives
    the dataset back. *)
Theorem scaling_round_trip (X : matrix) sc Xs :
  fit_transform (0, 1) X = Ok (sc, Xs) →
  (∀ r, r ∈ X → inverse_transform_row sc (transform_row sc r) = r) ∧
  inverse_transform sc Xs = Ok X.
Proof.
  intros Hfit.
  apply fit_transform_Ok in Hfit as (n & Hchk & Hsc & ->).
  apply check_array_Ok in Hchk as (Hne & Hn & Hall). split.
  - intros r Hr. apply (inverse_transform_row_transform_row sc n); [done|].
    rewrite list.Forall_forall in Hall. by apply Hall.
  - apply inverse_transform_Ok. split.
    + apply check_features_Ok. destruct Hsc as (Hs & Hm & Hnz).
      split_and!; [by destruct X|by rewrite Hs|].
      apply Forall_fmap. eapply list.Forall_impl; [exact Hall|].
      intros r Hr. simpl. rewrite Hs.
      by apply transform_row_length.
    + symmetry. by eapply round_trip_rows.
Qed.

Lemma scaling_round_trip_witness :
  fit_transform (0, 1) Toy.X = Ok (Toy.sc, Toy.Xs) ∧
  (∀ r, r ∈ Toy.X →
        inverse_transform_row Toy.sc (transform_row Toy.sc r) = r) ∧
  inverse_transform Toy.sc Toy.Xs = Ok Toy.X.
Proof.
  assert (fit_transform (0, 1) Toy.X = Ok (Toy.sc, Toy.Xs)) as Hfit
    by (by vm_compute).
  split; [exact Hfit|]. exact (scaling_round_trip Toy.X Toy.sc Toy.Xs Hfit).
Defined.

(** The scaled table of the small run. *)
Example toy_scaled :
  fmap (M:=list) this <$> Toy.Xs = [[2 # 9; 0]; [0; 1 # 9]; [1; 1]]%Q.
Proof. by vm_compute. Qed.

(** ** The flagged table *)

Lemma flagged_table_win_map som sc (Xs : matrix) thr :
  flagged_table som sc (win_map som Xs) thr ≡ₚ
  inverse_transform_row sc <$>
    filter (λ x, thr < mid som (winner som x)) Xs.
Proof.
  unfold flagged_table.
  assert (cell_customers sc (win_map som Xs) <$> flagged_cells som thr =
          fmap (M:=list) (inverse_transform_row sc) <$>
            ((λ c, filter (λ x, winner som x = c) Xs) <$>
             flagged_cells som thr)) as ->.
  { rewrite <- list_fmap_compose. apply list_fmap_ext. intros _ c _.
    unfold cell_customers. simpl. by rewrite win_map_lookup. }
  rewrite <- fmap_concat. apply fmap_Permutation.
  rewrite concat_filter_cells by apply NoDup_flagged_cells.
  erewrite list_filter_iff; [done|]. intros x. simpl.
  rewrite elem_of_flagged_cells. pose proof (winner_in_grid som x). tauto.
Qed.

(** C1. When the script produces its table, the table holds exactly the
    applications of the dataset whose winning cell has a mean inter-neuron
    distance strictly above 0.95, each with its original attribute values
    (every record once, the records of one cell together). *)
Theorem frauds_are_the_outlying_customers som dataset sc Xs fig wn frauds :
  fit_transform (0, 1) (attributes <$> dataset) = Ok (sc, Xs) →
  som_script som dataset = Ok (fig, (wn, frauds)) →
  frauds ≡ₚ
  filter (λ r, fraud_threshold < mid som (winner som (transform_row sc r)))
         (attributes <$> dataset).
Proof.
  intros Hfit Hrun. unfold som_script in Hrun. rewrite Hfit in Hrun.
  cbn [mbind result_bind fst snd] in Hrun.
  apply bind_Ok in Hrun as (fig' & _ & Hrun).
  apply bind_Ok in Hrun as ([wn' t] & Hfr & [= _ -> ->]).
  apply find_frauds_spec in Hfr as (_ & _ & _ & ->).
  rewrite flagged_table_win_map.
  apply fit_transform_Ok in Hfit as (n & Hchk & Hsc & ->).
  apply check_array_Ok in Hchk as (_ & _ & Hall).
  rewrite filter_fmap.
  erewrite round_trip_rows; [done|exact Hsc|].
  apply list.Forall_forall. intros r Hr.
  apply list_elem_of_filter in Hr as [_ Hr].
  rewrite list.Forall_forall in Hall. by apply Hall.
Qed.

Lemma frauds_are_the_outlying_customers_witness :
  fit_transform (0, 1) (attributes <$> Toy.dataset) = Ok (Toy.sc, Toy.Xs) ∧
  som_script Toy.som Toy.dataset =
    Ok (Toy.fig, (Toy.winning_nodes, Toy.frauds)) ∧
  Toy.frauds ≡ₚ
  filter (λ r, fraud_threshold <
               mid Toy.som (winner Toy.som (transform_row Toy.sc r)))
         (attributes <$> Toy.dataset).
Proof.
  assert (fit_transform (0, 1) (attributes <$> Toy.dataset) =
          Ok (Toy.sc, Toy.Xs)) as Hfit by (by vm_compute).
  assert (som_script Toy.som Toy.dataset =
          Ok (Toy.fig, (Toy.winning_nodes, Toy.frauds))) as Hrun
    by (by vm_compute).
  split_and!; [exact Hfit|exact Hrun|].
  exact (frauds_are_the_outlying_customers Toy.som Toy.dataset Toy.sc Toy.Xs
           Toy.fig Toy.winning_nodes Toy.frauds Hfit Hrun).
Defined.

(** In the small run the cells [(2, 0)] and [(0, 1)] are flagged, in this
    order, and the table holds the first two applications with their
    original attributes. *)
Example toy_frauds :
  Toy.winning_nodes = [(2, 0); (0, 1)]%nat ∧
  fmap (M:=list) this <$> Toy.frauds = [[2; 0]; [0; 1]]%Q.
Proof. by vm_compute. Qed.

(** C3. Threshold monotonicity: on the same distance map, scaler and
    reverse index, whenever the selection produces a table for a threshold
    [t1] and for a lower or equal threshold [t2], the cells and the table
    for [t1] are sub-sequences of those for [t2]; in particular every
    customer flagged at [t1] is flagged at [t2]. *)
Theorem threshold_monotone (som : MiniSom) (sc : MinMaxScaler)
    (mappings : gmap cell (list vector)) (t1 t2 : Qc)
    (wn1 wn2 : list cell) (frauds1 frauds2 : matrix) :
  t2 ≤ t1 →
  find_frauds som sc mappings t1 = Ok (wn1, frauds1) →
  find_frauds som sc mappings t2 = Ok (wn2, frauds2) →
  wn1 `sublist_of` wn2 ∧ frauds1 `sublist_of` frauds2 ∧
  ∀ r, r ∈ frauds1 → r ∈ frauds2.
Proof.
  intros Hle H1 H2.
  apply find_frauds_spec in H1 as (-> & _ & _ & ->).
  apply find_frauds_spec in H2 as (-> & _ & _ & ->).
  pose proof (flagged_cells_mono som t1 t2 Hle) as Hsub.
  assert (flagged_table som sc mappings t1 `sublist_of`
          flagged_table som sc mappings t2) as Htab.
  { unfold flagged_table. apply concat_sublist. by apply fmap_sublist. }
  split_and!; [done|done|].
  intros r Hr. by eapply elem_of_sublist.
Qed.

Lemma threshold_monotone_witness :
  Toy.q 85 100 ≤ fraud_threshold ∧
  find_frauds Toy.som Toy.sc (win_map Toy.som Toy.Xs) fraud_threshold =
    Ok (Toy.winning_nodes, Toy.frauds) ∧
  find_frauds Toy.som Toy.sc (win_map Toy.som Toy.Xs) (Toy.q 85 100) =
    Ok (Toy.winning_nodes_085, Toy.frauds_085) ∧
  Toy.winning_nodes `sublist_of` Toy.winning_nodes_085 ∧
  Toy.frauds `sublist_of` Toy.frauds_085 ∧
  ∀ r, r ∈ Toy.frauds → r ∈ Toy.frauds_085.
Proof.
  assert (Toy.q 85 100 ≤ fraud_threshold) as Hle by (by vm_compute).
  assert (find_frauds Toy.som Toy.sc (win_map Toy.som Toy.Xs)
            fraud_threshold = Ok (Toy.winning_nodes, Toy.frauds)) as H1
    by (by vm_compute).
  assert (find_frauds Toy.som Toy.sc (win_map Toy.som Toy.Xs)
            (Toy.q 85 100) = Ok (Toy.winning_nodes_085, Toy.frauds_085))
    as H2 by (by vm_compute).
  destruct (threshold_monotone Toy.som Toy.sc (win_map Toy.som Toy.Xs)
              fraud_threshold (Toy.q 85 100) Toy.winning_nodes
              Toy.winning_nodes_085 Toy.frauds Toy.frauds_085 Hle H1 H2)
    as (Hwn & Hfr & Hin).
  split_and!; [exact Hle|exact H1|exact H2|exact Hwn|exact Hfr|exact Hin].
Defined.

(** Lowering the threshold to 0.85 adds the cell [(9, 9)] and its
    customer at the end. *)
Example toy_frauds_085 :
  Toy.winning_nodes_085 = [(2, 0); (0, 1); (9, 9)]%nat ∧
  fmap (M:=list) this <$> Toy.frauds_085 = [[2; 0]; [0; 1]; [9; 9]]%Q.
Proof. by vm_compute. Qed.

(** ** The reverse index *)

(** Every cell of the grid, one after the other. *)
Definition grid_cells : list cell :=
  x ← seq 0 grid_x; (λ y, (x, y)) <$> seq 0 grid_y.

Lemma elem_of_grid_cells (c : cell) :
  c ∈ grid_cells ↔ (c.1 < grid_x ∧ c.2 < grid_y)%nat.
Proof. apply elem_of_row_major. Qed.

(** C5. The reverse index partitions the input: a record is listed under a
    cell exactly when it is an input record and the cell is its winner,
    the winner being a cell of the grid whose prototype is nearest to the
    record; and the lists of all the cells together are a rearrangement of
    the input, every row counted once. *)
Theorem win_map_partition som (X : matrix) :
  (∀ x c, x ∈ win_map som X !!! c ↔ x ∈ X ∧ c = winner som x) ∧
  (∀ x, winner som x ∈ grid_cells ∧
        ∀ c, c ∈ grid_cells →
             activation_map som x (winner som x).1 (winner som x).2 ≤
             activation_map som x c.1 c.2) ∧
  concat ((λ c, win_map som X !!! c) <$> grid_cells) ≡ₚ X.
Proof.
  split_and!.
  - intros x c. rewrite win_map_lookup, list_elem_of_filter.
    split; intros [? ?]; by split.
  - intros x. split.
    + apply elem_of_grid_cells, winner_in_grid.
    + intros c Hc. apply elem_of_grid_cells in Hc as [Hx Hy].
      by apply winner_nearest.
  - erewrite list_fmap_ext; [|intros _ c _; apply win_map_lookup].
    rewrite concat_filter_cells by apply NoDup_row_major.
    rewrite filter_all; [done|].
    intros x. apply elem_of_grid_cells, winner_in_grid.
Qed.

(** ** Failure of the collection *)

Lemma flagged_cells_nil som thr :
  (∀ i j, (i < 10)%nat → (j < 10)%nat → dist som i j ≤ thr) →
  flagged_cells som thr = [].
Proof.
  intros Hle. unfold flagged_cells.
  replace (filter (selected som thr) row_major) with (@nil (nat * nat)); [done|].
  symmetry. apply elem_of_nil_inv. intros p Hp.
  apply list_elem_of_filter in Hp as [Hsel Hp].
  apply elem_of_row_major in Hp as [Hi Hj].
  by apply (Qcle_not_lt _ _ (Hle _ _ Hi Hj)).
Qed.

(** C8. With no entry of the distance map above 0.95 the collection does
    not return an empty table: the final [np.concatenate] raises.  And
    whatever the map, the index and the threshold, a run that returns a
    table returns a table with at least one customer. *)
Theorem no_outlying_cell_raises (som : MiniSom) (sc : MinMaxScaler)
    (mappings : gmap cell (list vector)) :
  ((∀ i j, (i < 10)%nat → (j < 10)%nat → dist som i j ≤ fraud_threshold) →
   find_frauds som sc mappings fraud_threshold = Raise ValueError_concatenate)
  ∧ (∀ thr wn, find_frauds som sc mappings thr ≠ Ok (wn, [])).
Proof.
  split.
  - intros Hle. unfold find_frauds.
    assert (collect_loop som sc mappings fraud_threshold = Ok ([], []))
      as ->; [|done].
    apply collect_loop_spec. rewrite flagged_cells_nil by done.
    split; [done|constructor].
  - intros thr wn Hrun.
    apply find_frauds_spec in Hrun as (-> & Hne & Hchk & Htab).
    unfold flagged_table in Htab.
    destruct (flagged_cells som thr) as [|c cells]; [done|].
    inversion_clear Hchk as [|?? Hc _].
    apply check_features_Ok in Hc as (Hc & _).
    simpl in Htab. unfold cell_customers in Htab at 1.
    by destruct (mappings !!! c).
Qed.

Lemma no_outlying_cell_raises_witness :
  (∀ i j, (i < 10)%nat → (j < 10)%nat →
          dist Toy.flat_som i j ≤ fraud_threshold) ∧
  find_frauds Toy.flat_som Toy.sc (win_map Toy.flat_som Toy.Xs)
    fraud_threshold = Raise ValueError_concatenate.
Proof.
  assert (∀ i j, (i < 10)%nat → (j < 10)%nat →
                 dist Toy.flat_som i j ≤ fraud_threshold) as Hflat
    by (intros i j _ _; by vm_compute).
  split; [exact Hflat|].
  exact (proj1 (no_outlying_cell_raises Toy.flat_som Toy.sc
                  (win_map Toy.flat_som Toy.Xs)) Hflat).
Defined.

(** A cell above the threshold without any customer makes the inverse
    scaling raise: at threshold 0.25 every cell is selected, and the first
    one, [(0, 0)], is empty. *)
Example toy_empty_cell :
  find_frauds Toy.som Toy.sc (win_map Toy.som Toy.Xs) (Toy.q 1 4) =
  Raise ValueError_no_sample.
Proof. by vm_compute. Qed.

(** ** The approval label *)

Definition binary (a : application) : Prop :=
  approved a = 0%Z ∨ approved a = 1%Z.

Lemma py_index_binary {A} (x0 x1 : A) (v : Z) :
  v = 0%Z ∨ v = 1%Z → ∃ a, py_index [x0; x1] v = Ok a.
Proof. intros [-> | ->]; eexists; reflexivity. Qed.

Lemma plot_body_binary som (y : list Z) i (x : vector) fig0 v :
  y !! i = Some v → (v = 0 ∨ v = 1)%Z →
  ∃ a, plot_body som y (i, x) fig0 = Ok (fig0 ++ [a]).
Proof.
  intros Hv Hbin. unfold plot_body, np_index. cbn [fst snd].
  rewrite Hv. cbn [mbind result_bind].
  destruct (py_index_binary "o"%char "s"%char v Hbin) as (m & Hm).
  destruct (py_index_binary "r"%char "g"%char v Hbin) as (c & Hc).
  unfold markers, colors. rewrite Hm, Hc. cbn [mbind result_bind].
  by eexists.
Qed.

Lemma plot_succeeds som (y : list Z) (items : list (nat * vector)) fig0 :
  Forall (λ ix, ∃ v, y !! ix.1 = Some v ∧ (v = 0 ∨ v = 1)%Z) items →
  ∃ fig, for_each (plot_body som y) items fig0 = Ok fig.
Proof.
  intros Hitems. revert fig0.
  induction Hitems as [|[i x] items (v & Hv & Hbin) _ IH]; intros fig0.
  { by exists fig0. }
  cbn [for_each].
  destruct (plot_body_binary som y i x fig0 v Hv Hbin) as (a & ->).
  cbn [mbind result_bind]. apply IH.
Qed.

Lemma som_script_frauds som (dataset : list application) :
  Forall binary dataset →
  snd <$> som_script som dataset =
  scX ← fit_transform (0, 1) (attributes <$> dataset);
  find_frauds som scX.1 (win_map som scX.2) fraud_threshold.
Proof.
  intros Hbin. unfold som_script.
  destruct (fit_transform _ _) as [[sc Xs]|e] eqn:Hfit; [|done].
  cbn [mbind result_bind fst snd].
  destruct (plot_succeeds som (approved <$> dataset) (imap pair Xs) [])
    as (fig & ->).
  - apply list.Forall_forall. intros [i x] Hix.
    apply elem_of_lookup_imap_1 in Hix as (i' & x' & [= -> ->] & Hx).
    apply lookup_lt_Some in Hx.
    apply fit_transform_Ok in Hfit as (_ & _ & _ & ->).
    rewrite !length_fmap in Hx.
    destruct (lookup_lt_is_Some_2 dataset i' Hx) as [a Ha].
    exists (approved a). cbn [fst]. rewrite list_lookup_fmap, Ha.
    split; [done|]. rewrite list.Forall_forall in Hbin. apply Hbin.
    by eapply list_elem_of_lookup_2.
  - cbn [mbind result_bind].
    by destruct (find_frauds som sc (win_map som Xs) fraud_threshold).
Qed.

(** C9. The approval label does not flow into the flagged table: two
    datasets with the same attribute columns and arbitrary binary labels,
    run through the script with the same trained map, end with the same
    winning nodes and the same table of frauds (or raise the same
    exception); only the markers of the figure depend on the labels. *)
Theorem approval_label_noninterference (som : MiniSom)
    (d1 d2 : list application) :
  attributes <$> d1 = attributes <$> d2 →
  Forall binary d1 → Forall binary d2 →
  snd <$> som_script som d1 = snd <$> som_script som d2.
Proof.
  intros HX H1 H2. rewrite !som_script_frauds by done. by rewrite HX.
Qed.

Lemma approval_label_noninterference_witness :
  attributes <$> Toy.dataset = attributes <$> Toy.relabelled ∧
  Forall binary Toy.dataset ∧ Forall binary Toy.relabelled ∧
  snd <$> som_script Toy.som Toy.dataset =
  snd <$> som_script Toy.som Toy.relabelled.
Proof.
  assert (attributes <$> Toy.dataset = attributes <$> Toy.relabelled) as HX
    by reflexivity.
  assert (Forall binary Toy.dataset) as H1
    by (repeat (apply Forall_cons; [first [by left|by right]|]);
        apply Forall_nil).
  assert (Forall binary Toy.relabelled) as H2
    by (repeat (apply Forall_cons; [first [by left|by right]|]);
        apply Forall_nil).
  split_and!; [exact HX|exact H1|exact H2|].
  exact (approval_label_noninterference Toy.som Toy.dataset Toy.relabelled
           HX H1 H2).
Defined.

(** The labels do reach the figure: the first marker is a red circle for
    the dataset and a green square once the labels are flipped. *)
Example toy_markers :
  (marker <$> Toy.fig) = ["o"; "s"; "s"]%char ∧
  (fmap (M:=list) marker <$> (fst <$> som_script Toy.som Toy.relabelled)) =
  Ok ["s"; "o"; "o"]%char.
Proof. by vm_compute. Qed.

(** ** The store model refines the functional one *)

Lemma bind_st_Ok {A B} (m : state A) (f : A → state B) h a h' :
  m h = Ok (a, h') → (m ≫= f) h = f a h'.
Proof. intros H. unfold mbind, state_bind. by rewrite H. Qed.

Lemma bind_st_Raise {A B} (m : state A) (f : A → state B) h e :
  m h = Raise e → (m ≫= f) h = Raise e.
Proof. intros H. unfold mbind, state_bind. by rewrite H. Qed.

(** A view resolves to a row when its base array holds that row. *)
Definition resolves (h : store) (v : view) (r : vector) : Prop :=
  ∃ a, h !! v.1 = Some (Floats a) ∧ a !! v.2 = Some r.

Definition holds (h : store) (l : loc) (a : matrix) : Prop :=
  h !! l = Some (Floats a).

Lemma resolves_weaken h h' v r : h ⊆ h' → resolves h v r → resolves h' v r.
Proof.
  intros Hsub (a & Ha & Hr). exists a. split; [|done].
  by eapply lookup_weaken.
Qed.

Lemma read_array_holds l a h : holds h l a → read_array l h = Ok (a, h).
Proof. unfold holds, read_array. by intros ->. Qed.

Lemma read_view_resolves h v r : resolves h v r → read_view v h = Ok (r, h).
Proof.
  intros (a & Ha & Hr). unfold read_view.
  rewrite (bind_st_Ok _ _ h a h) by (by apply read_array_holds).
  unfold lift, np_index. by rewrite Hr.
Qed.

Lemma read_views_resolves h vs rows :
  Forall2 (resolves h) vs rows → read_views vs h = Ok (rows, h).
Proof.
  unfold read_views. intros Hvs.
  enough (∀ acc, for_each_st
            (λ v rows, r ← read_view v; mret (rows ++ [r])) vs acc h =
          Ok (acc ++ rows, h)) as H by apply H.
  induction Hvs as [|v r vs rows Hv _ IH]; intros acc.
  { simpl. by rewrite app_nil_r. }
  cbn [for_each_st]. rewrite (bind_st_Ok _ _ h (acc ++ [r]) h).
  - rewrite IH. by rewrite <- app_assoc.
  - erewrite bind_st_Ok; [|by apply read_view_resolves]. done.
Qed.

Lemma read_arrays_holds h ls arrays :
  Forall2 (holds h) ls arrays → read_arrays ls h = Ok (arrays, h).
Proof.
  unfold read_arrays. intros Hls.
  enough (∀ acc, for_each_st
            (λ l arrays, a ← read_array l; mret (arrays ++ [a])) ls acc h =
          Ok (acc ++ arrays, h)) as H by apply H.
  induction Hls as [|l a ls arrays Hl _ IH]; intros acc.
  { simpl. by rewrite app_nil_r. }
  cbn [for_each_st]. rewrite (bind_st_Ok _ _ h (acc ++ [a]) h).
  - rewrite IH. by rewrite <- app_assoc.
  - erewrite bind_st_Ok; [|by apply read_array_holds]. done.
Qed.

Lemma um_matrix_lookup som (x y : nat) :
  (x < grid_x)%nat → (y < grid_y)%nat →
  um_matrix som !! x ≫= (.!! y) = Some (distance_map som x y).
Proof.
  intros Hx Hy. unfold um_matrix.
  rewrite list_lookup_fmap, lookup_seq_lt by done.
  cbn [fmap option_fmap option_map mbind option_bind].
  by rewrite list_lookup_fmap, lookup_seq_lt.
Qed.

Lemma read_entry_dist som h um (i j : nat) :
  holds h um (um_matrix som) → (i < 10)%nat → (j < 10)%nat →
  read_entry um j i h = Ok (dist som i j, h).
Proof.
  intros Hum Hi Hj. unfold read_entry.
  erewrite bind_st_Ok; [|by apply read_array_holds].
  pose proof (um_matrix_lookup som j i Hj Hi) as Hlook.
  destruct (um_matrix som !! j) as [row|] eqn:Hrow; [|done].
  simpl in Hlook.
  erewrite bind_st_Ok; [|unfold lift, np_index; by rewrite Hrow].
  unfold lift, np_index. by rewrite Hlook.
Qed.

(** Simulation: the store-level run raises exactly when the functional one
    does, with the same exception, and otherwise the two results are
    related in the final store. *)
Definition sim {A B} (R : A → B → store → Prop) (r : result A)
    (rs : result (B * store)) : Prop :=
  match r, rs with
  | Ok a, Ok (b, h') => R a b h'
  | Raise e, Raise e' => e = e'
  | _, _ => False
  end.

(** The result is a new array: its location was free, and nothing else
    changed. *)
Definition allocated (h : store) (a : matrix) (l : loc) (h' : store) : Prop :=
  h !! l = None ∧ h' = <[l := Floats a]> h.

Lemma new_array_allocated h (a : matrix) :
  ∃ l, new_array (Floats a) h = Ok (l, <[l := Floats a]> h) ∧ h !! l = None.
Proof.
  exists (fresh (dom h)). split; [done|].
  apply not_elem_of_dom, is_fresh.
Qed.

Lemma update_array_insert h l (a : matrix) f :
  update_array l f (<[l := Floats a]> h) = Ok ((), <[l := Floats (f a)]> h).
Proof.
  unfold update_array. rewrite lookup_insert_eq. by rewrite insert_insert_eq.
Qed.

Lemma inverse_transform_st_sim sc h (vs : list view) (rows : matrix) :
  Forall2 (resolves h) vs rows →
  sim (allocated h) (inverse_transform sc rows) (inverse_transform_st sc vs h).
Proof.
  intros Hvs. unfold inverse_transform_st, inverse_transform.
  erewrite bind_st_Ok; [|by apply read_views_resolves].
  destruct (check_features sc rows) as [[]|e]; cbn [mbind result_bind].
  - erewrite bind_st_Ok; [|done].
    destruct (new_array_allocated h rows) as (l & Hnew & Hfree).
    erewrite bind_st_Ok; [|exact Hnew].
    erewrite bind_st_Ok; [|apply update_array_insert].
    erewrite bind_st_Ok; [|apply update_array_insert].
    simpl. split; [done|]. do 2 f_equal.
    rewrite <- list_fmap_compose. done.
  - by erewrite bind_st_Raise.
Qed.

Lemma np_concatenate_st_sim h (ls : list loc) (arrays : list matrix) :
  Forall2 (holds h) ls arrays →
  sim (allocated h) (np_concatenate arrays) (np_concatenate_st ls h).
Proof.
  intros Hls. unfold np_concatenate_st.
  erewrite bind_st_Ok; [|by apply read_arrays_holds].
  destruct (np_concatenate arrays) as [t|e].
  - erewrite bind_st_Ok; [|done].
    destruct (new_array_allocated h t) as (l & -> & Hfree). by split.
  - by erewrite bind_st_Raise.
Qed.

Lemma for_each_sim {A S T} (R : S → T → store → Prop)
    (body : A → S → result S) (body_st : A → T → state T) (l : list A) :
  (∀ a s t h, a ∈ l → R s t h → sim R (body a s) (body_st a t h)) →
  ∀ s t h, R s t h → sim R (for_each body l s) (for_each_st body_st l t h).
Proof.
  induction l as [|a l IH]; intros Hbody s t h HR; [exact HR|].
  cbn [for_each for_each_st].
  pose proof (Hbody a s t h ltac:(left) HR) as Hstep.
  unfold mbind at 2, state_bind.
  destruct (body a s) as [s'|e], (body_st a t h) as [[t' h']|e'];
    simpl in Hstep; try done.
  cbn [mbind result_bind]. apply IH; [|done].
  intros a' s0 t0 h0 Ha'. apply Hbody. by right.
Qed.

(** The views of the reverse index resolve to the rows of the functional
    reverse index. *)
Definition view_of (lX : loc) (X : matrix) (v : view) (r : vector) : Prop :=
  v.1 = lX ∧ X !! v.2 = Some r.

Lemma view_map_win_map som lX (X : matrix) (c : cell) :
  Forall2 (view_of lX X) (view_map som lX X !!! c) (win_map som X !!! c).
Proof.
  unfold view_map, win_map. induction X as [|x X IH] using rev_ind.
  { simpl. rewrite !lookup_total_empty. constructor. }
  rewrite imap_app, !foldl_app. cbn [imap foldl fst snd].
  assert (∀ vs rows, Forall2 (view_of lX X) vs rows →
                     Forall2 (view_of lX (X ++ [x])) vs rows) as Hweak.
  { intros vs rows. apply Forall2_impl. intros v r [Hv Hr]. split; [done|].
    by apply lookup_app_l_Some. }
  destruct (decide (winner som x = c)) as [<-|Hne].
  - rewrite !lookup_total_insert_eq. apply Forall2_app; [by apply Hweak|].
    constructor; [|constructor]. split; [done|]. simpl.
    rewrite Nat.add_0_r. apply list_lookup_middle. done.
  - rewrite !lookup_total_insert_ne by done. by apply Hweak.
Qed.

Section refinement.
Context (som : MiniSom) (sc : MinMaxScaler).
Context (lX : loc) (X : matrix) (um : loc) (h1 : store).
Context (HX : holds h1 lX X) (Hum : holds h1 um (um_matrix som)).

Definition loop_rel (st : list cell * list matrix)
    (st' : list cell * list loc) (h : store) : Prop :=
  st'.1 = st.1 ∧ Forall2 (holds h) st'.2 st.2 ∧ h1 ⊆ h.

Lemma collect_body_st_sim thr i j st st' h :
  (i < 10)%nat → (j < 10)%nat → loop_rel st st' h →
  sim loop_rel
      (collect_body som sc (win_map som X) thr i j st)
      (collect_body_st sc (view_map som lX X) um thr i j st' h).
Proof.
  intros Hi Hj (Hwn & Hfr & Hsub). unfold collect_body_st, collect_body.
  erewrite bind_st_Ok;
    [|apply read_entry_dist; [by eapply lookup_weaken|done|done]].
  case_decide as Hsel; [|by split].
  assert (Forall2 (resolves h) (view_map som lX X !!! (j, i))
                  (win_map som X !!! (j, i))) as Hviews.
  { eapply list.Forall2_impl; [apply view_map_win_map|].
    intros v r [Hv Hr]. exists X. split; [|done].
    rewrite Hv. by eapply lookup_weaken. }
  pose proof (inverse_transform_st_sim sc h _ _ Hviews) as Hinv.
  unfold mbind at 2, state_bind.
  destruct (inverse_transform sc _) as [a|e],
           (inverse_transform_st sc _ h) as [[l h']|e'];
    simpl in Hinv; try done.
  destruct Hinv as [Hfree ->]. simpl. split_and!.
  - by rewrite Hwn.
  - apply Forall2_app.
    + eapply list.Forall2_impl; [exact Hfr|]. intros l0 a0 Hl0.
      unfold holds in *. rewrite lookup_insert_ne; [done|].
      intros <-. by rewrite Hfree in Hl0.
    + constructor; [|constructor]. apply lookup_insert_eq.
  - etrans; [exact Hsub|]. by apply insert_subseteq.
Qed.

Lemma collect_loop_st_sim thr :
  sim loop_rel
      (collect_loop som sc (win_map som X) thr)
      (for_each_st
         (λ i, for_each_st
                 (λ j, collect_body_st sc (view_map som lX X) um thr i j)
                 (seq 0 10))
         (seq 0 10) ([], []) h1).
Proof.
  unfold collect_loop. apply for_each_sim.
  - intros i s t h Hi HR. apply for_each_sim; [|done].
    intros j s0 t0 h0 Hj HR0.
    apply elem_of_seq in Hi, Hj. apply collect_body_st_sim; [lia|lia|done].
  - split_and!; [done|constructor|done].
Qed.
End refinement.

(** The stage returns the same winning nodes, the table sits in a new
    array, and the arrays of the initial store are as they were. *)
Definition stage_rel (h : store) (res : list cell * matrix)
    (res' : list cell * loc) (h' : store) : Prop :=
  res'.1 = res.1 ∧ holds h' res'.2 res.2 ∧ h ⊆ h' ∧ h !! res'.2 = None.

Lemma find_frauds_st_refines som sc lX (X : matrix) thr h :
  holds h lX X →
  sim (stage_rel h) (find_frauds som sc (win_map som X) thr)
      (find_frauds_st som sc lX thr h).
Proof.
  intros HX. unfold find_frauds_st, find_frauds.
  erewrite bind_st_Ok;
    [|unfold win_map_st; erewrite bind_st_Ok;
      [reflexivity|by apply read_array_holds]].
  destruct (new_array_allocated h (um_matrix som)) as (um & Hnew & Hfree).
  unfold distance_map_st. erewrite bind_st_Ok; [|exact Hnew].
  set (h1 := <[um := Floats (um_matrix som)]> h).
  assert (h ⊆ h1) as Hsub by (by apply insert_subseteq).
  assert (holds h1 lX X) as HX1 by (by eapply lookup_weaken).
  assert (holds h1 um (um_matrix som)) as Hum by apply lookup_insert_eq.
  pose proof (collect_loop_st_sim som sc lX X um h1 HX1 Hum thr) as Hloop.
  unfold mbind at 3, state_bind.
  destruct (collect_loop som sc (win_map som X) thr) as [[wn fr]|e],
           (for_each_st _ _ _ h1) as [[[wn' ls] h2]|e'];
    simpl in Hloop; try done.
  destruct Hloop as (Hwn & Hfr & Hsub2). simpl in Hwn, Hfr. subst wn'.
  cbn [mbind result_bind fst snd].
  pose proof (np_concatenate_st_sim h2 ls fr Hfr) as Hcat.
  unfold mbind at 2, state_bind.
  destruct (np_concatenate fr) as [t|e],
           (np_concatenate_st ls h2) as [[lt h3]|e'];
    simpl in Hcat; try done.
  destruct Hcat as [Hfree2 ->]. simpl. split_and!.
  - done.
  - apply lookup_insert_eq.
  - etrans; [exact Hsub|]. etrans; [exact Hsub2|]. by apply insert_subseteq.
  - eapply lookup_weaken_None; [exact Hfree2|]. by etrans.
Qed.

(** C10. Frame property of the collection stage: with the scaled features
    [X] and the labels [y] in the store, a run of the stage (reverse index,
    distance map, selection, inverse scaling, concatenation) leaves both
    arrays, and every other array that existed before, as they were; the
    table it returns is a new array. *)
Theorem collection_leaves_dataset_unchanged (som : MiniSom)
    (sc : MinMaxScaler) (lX ly : loc) (X : matrix) (y : list Z) (thr : Qc)
    (h h' : store) (res : list cell * loc) :
  h !! lX = Some (Floats X) → h !! ly = Some (Ints y) →
  find_frauds_st som sc lX thr h = Ok (res, h') →
  h' !! lX = Some (Floats X) ∧ h' !! ly = Some (Ints y) ∧
  res.2 ≠ lX ∧ res.2 ≠ ly ∧
  ∀ l a, h !! l = Some a → h' !! l = Some a.
Proof.
  intros HX Hy Hrun.
  pose proof (find_frauds_st_refines som sc lX X thr h HX) as Href.
  rewrite Hrun in Href.
  destruct (find_frauds som sc (win_map som X) thr) as [res0|e];
    simpl in Href; [|done].
  destruct Href as (_ & _ & Hsub & Hnew).
  split_and!.
  - by eapply lookup_weaken.
  - by eapply lookup_weaken.
  - intros Heq. rewrite Heq in Hnew. by rewrite HX in Hnew.
  - intros Heq. rewrite Heq in Hnew. by rewrite Hy in Hnew.
  - intros l a Hl. by eapply lookup_weaken.
Qed.

Lemma collection_leaves_dataset_unchanged_witness :
  Toy.h0 !! 1%positive = Some (Floats Toy.Xs) ∧
  Toy.h0 !! 2%positive = Some (Ints Toy.y) ∧
  find_frauds_st Toy.som Toy.sc 1%positive fraud_threshold Toy.h0 =
    Ok ((Toy.winning_nodes, Toy.table_loc), Toy.h1) ∧
  Toy.h1 !! 1%positive = Some (Floats Toy.Xs) ∧
  Toy.h1 !! 2%positive = Some (Ints Toy.y).
Proof.
  assert (Toy.h0 !! 1%positive = Some (Floats Toy.Xs)) as HX
    by (by vm_compute).
  assert (Toy.h0 !! 2%positive = Some (Ints Toy.y)) as Hy
    by (by vm_compute).
  assert (find_frauds_st Toy.som Toy.sc 1%positive fraud_threshold Toy.h0 =
          Ok ((Toy.winning_nodes, Toy.table_loc), Toy.h1)) as Hrun
    by (by vm_compute).
  destruct (collection_leaves_dataset_unchanged Toy.som Toy.sc 1%positive
              2%positive Toy.Xs Toy.y fraud_threshold Toy.h0 Toy.h1
              (Toy.winning_nodes, Toy.table_loc) HX Hy Hrun)
    as (HX' & Hy' & _).
  split_and!; [exact HX|exact Hy|exact Hrun|exact HX'|exact Hy'].
Defined.

(** C7. The selection visits the index pairs of [dist] in row-major order:
    the winning nodes are the selected pairs in that order (as cells), and
    the table is the concatenation of their customers in that order.  A
    second evaluation on the same trained map, in the store the first one
    left, returns the same winning nodes and a table with the same rows in
    the same order. *)
Theorem selection_is_row_major_and_repeatable (som : MiniSom)
    (sc : MinMaxScaler) (lX : loc) (X : matrix) (thr : Qc) (h h1 : store)
    (wn : list cell) (lt : loc) :
  h !! lX = Some (Floats X) →
  find_frauds_st som sc lX thr h = Ok ((wn, lt), h1) →
  wn = cell_of <$> filter (selected som thr) row_major ∧
  ∃ t, h1 !! lt = Some (Floats t) ∧
       t = concat ((λ c, inverse_transform_row sc <$> win_map som X !!! c)
                     <$> wn) ∧
       ∃ lt' h2, find_frauds_st som sc lX thr h1 = Ok ((wn, lt'), h2) ∧
                 h2 !! lt' = Some (Floats t).
Proof.
  intros HX Hrun.
  pose proof (find_frauds_st_refines som sc lX X thr h HX) as Href.
  rewrite Hrun in Href.
  destruct (find_frauds som sc (win_map som X) thr) as [[wn0 t]|e] eqn:Hpure;
    simpl in Href; [|done].
  destruct Href as (Hwn & Ht & Hsub & _). simpl in Hwn, Ht. subst wn0.
  pose proof Hpure as Hspec.
  apply find_frauds_spec in Hspec as (Hcells & _ & _ & Htab).
  split; [exact Hcells|]. exists t. split_and!; [exact Ht| |].
  - rewrite Htab, Hcells. reflexivity.
  - assert (holds h1 lX X) as HX1 by (by eapply lookup_weaken).
    pose proof (find_frauds_st_refines som sc lX X thr h1 HX1) as Href.
    rewrite Hpure in Href.
    destruct (find_frauds_st som sc lX thr h1) as [[[wn' lt'] h2]|e'];
      simpl in Href; [|done].
    destruct Href as (Hwn' & Ht' & _). simpl in Hwn', Ht'. subst wn'.
    by exists lt', h2.
Qed.

Lemma selection_is_row_major_and_repeatable_witness :
  Toy.h0 !! 1%positive = Some (Floats Toy.Xs) ∧
  find_frauds_st Toy.som Toy.sc 1%positive fraud_threshold Toy.h0 =
    Ok ((Toy.winning_nodes, Toy.table_loc), Toy.h1) ∧
  Toy.winning_nodes =
    cell_of <$> filter (selected Toy.som fraud_threshold) row_major.
Proof.
  assert (Toy.h0 !! 1%positive = Some (Floats Toy.Xs)) as HX
    by (by vm_compute).
  assert (find_frauds_st Toy.som Toy.sc 1%positive fraud_threshold Toy.h0 =
          Ok ((Toy.winning_nodes, Toy.table_loc), Toy.h1)) as Hrun
    by (by vm_compute).
  split_and!; [exact HX|exact Hrun|].
  exact (proj1 (selection_is_row_major_and_repeatable Toy.som Toy.sc
                  1%positive Toy.Xs fraud_threshold Toy.h0 Toy.h1
                  Toy.winning_nodes Toy.table_loc HX Hrun)).
Defined.

(** The first index pairs of the enumeration, and the table the stage
    leaves in the store of the small run. *)
Example row_major_head :
  take 12 row_major =
  [(0, 0); (0, 1); (0, 2); (0, 3); (0, 4); (0, 5); (0, 6); (0, 7); (0, 8);
   (0, 9); (1, 0); (1, 1)]%nat.
Proof. reflexivity. Qed.

Example toy_store_table :
  Toy.h1 !! Toy.table_loc = Some (Floats Toy.frauds).
Proof. by vm_compute. Qed.

(** * Further properties of the two scripts *)

(** ** How the collection ends (som.py, lines 135-150) *)

Lemma for_each_raise {A S} (body : A → S → result S) (e : exn) l s :
  (∀ a s, a ∈ l → (∃ s', body a s = Ok s') ∨ body a s = Raise e) →
  (∃ a, a ∈ l ∧ ∀ s, body a s = Raise e) →
  for_each body l s = Raise e.
Proof.
  revert s. induction l as [|a l IH]; intros s Hbody (b & Hb & Hraise).
  { by apply elem_of_nil in Hb. }
  cbn [for_each].
  destruct (Hbody a s ltac:(left)) as [[s' Hs']|He]; [|by rewrite He].
  rewrite Hs'. cbn [mbind result_bind].
  apply elem_of_cons in Hb as [->|Hb].
  { by rewrite Hraise in Hs'. }
  apply IH; [|by exists b].
  intros a' s0 Ha'. apply Hbody. by right.
Qed.

Lemma Forall_filter_keep {A} (P Q : A → Prop) `{!∀ x, Decision (Q x)}
    (l : list A) :
  Forall P l → Forall P (filter Q l).
Proof.
  rewrite !list.Forall_forall. intros HP x Hx.
  apply list_elem_of_filter in Hx as [_ Hx]. by apply HP.
Qed.

Section outcome.
Context (som : MiniSom) (sc : MinMaxScaler) (Xs : matrix).
Context (Hwidth : Forall (λ r, length r = length (scale_ sc)) Xs).
Context (Hfeatures : length (scale_ sc) ≠ 0%nat).

Lemma cell_nonempty_checked (c : cell) :
  win_map som Xs !!! c ≠ [] →
  check_features sc (win_map som Xs !!! c) = Ok ().
Proof.
  intros Hne. apply check_features_Ok. split_and!; [done|done|].
  rewrite win_map_lookup. by apply Forall_filter_keep.
Qed.

Lemma cell_empty_raises (c : cell) :
  win_map som Xs !!! c = [] →
  inverse_transform sc (win_map som Xs !!! c) = Raise ValueError_no_sample.
Proof. by intros ->. Qed.

Lemma flagged_cells_selected thr (c : cell) :
  c ∈ flagged_cells som thr ↔
  ∃ p, p ∈ row_major ∧ selected som thr p ∧ c = cell_of p.
Proof.
  unfold flagged_cells. rewrite list_elem_of_fmap. split.
  - intros (p & -> & Hp). apply list_elem_of_filter in Hp as [Hsel Hp].
    by exists p.
  - intros (p & Hp & Hsel & ->). exists p. split; [done|].
    by apply list_elem_of_filter.
Qed.

(** X1. On a scaled table of the scaler's width, the collection returns a
    table exactly when at least one cell is above the threshold and every
    cell above the threshold has won at least one customer. *)
Theorem find_frauds_succeeds_iff (thr : Qc) :
  (∃ res, find_frauds som sc (win_map som Xs) thr = Ok res) ↔
  flagged_cells som thr ≠ [] ∧
  ∀ c, c ∈ flagged_cells som thr → win_map som Xs !!! c ≠ [].
Proof.
  split.
  - intros ([wn t] & Hrun).
    apply find_frauds_spec in Hrun as (-> & Hne & Hchk & _).
    split; [done|]. intros c Hc.
    rewrite list.Forall_forall in Hchk.
    specialize (Hchk c Hc). by apply check_features_Ok in Hchk as (? & _).
  - intros [Hne Hcells].
    exists (flagged_cells som thr, flagged_table som sc (win_map som Xs) thr).
    apply find_frauds_spec. split_and!; [done|done| |done].
    apply list.Forall_forall. intros c Hc.
    by apply cell_nonempty_checked, Hcells.
Qed.

(** X2. If some cell above the threshold has won no customer, the
    collection raises the validation error of [inverse_transform] (an
    array without samples), whatever the other cells hold. *)
Theorem empty_flagged_cell_raises (thr : Qc) (c : cell) :
  c ∈ flagged_cells som thr → win_map som Xs !!! c = [] →
  find_frauds som sc (win_map som Xs) thr = Raise ValueError_no_sample.
Proof.
  intros Hc Hempty. unfold find_frauds.
  assert (collect_loop som sc (win_map som Xs) thr =
          Raise ValueError_no_sample) as ->; [|done].
  unfold collect_loop.
  rewrite (for_each_nested (collect_body som sc (win_map som Xs) thr)).
  fold row_major. apply for_each_raise.
  - intros [i j] st _. cbn [fst snd].
    destruct (decide (selected som thr (i, j))) as [Hsel|Hsel].
    + rewrite collect_body_selected by done.
      destruct (decide (win_map som Xs !!! (j, i) = [])) as [He|Hne].
      * right. by rewrite He.
      * left. rewrite (proj2 (inverse_transform_Ok sc _ _)
                         (conj (cell_nonempty_checked (j, i) Hne) eq_refl)).
        by eexists.
    + left. rewrite collect_body_not_selected by done. by eexists.
  - apply flagged_cells_selected in Hc as ([i j] & Hp & Hsel & ->).
    exists (i, j). split; [done|]. intros st. cbn [fst snd].
    rewrite collect_body_selected by done.
    change (cell_of (i, j)) with (j, i) in Hempty. by rewrite Hempty.
Qed.
End outcome.

Lemma find_frauds_succeeds_iff_witness :
  Forall (λ r, length r = length (scale_ Toy.sc)) Toy.Xs ∧
  length (scale_ Toy.sc) ≠ 0%nat ∧
  flagged_cells Toy.som fraud_threshold ≠ [] ∧
  ∀ c, c ∈ flagged_cells Toy.som fraud_threshold →
       win_map Toy.som Toy.Xs !!! c ≠ [].
Proof.
  assert (Forall (λ r, length r = length (scale_ Toy.sc)) Toy.Xs) as Hw
    by (apply (bool_decide_unpack _); by vm_compute).
  assert (length (scale_ Toy.sc) ≠ 0%nat) as Hf by (by vm_compute).
  split_and!; [exact Hw|exact Hf|..];
    apply (proj1 (find_frauds_succeeds_iff Toy.som Toy.sc Toy.Xs Hw Hf
                    fraud_threshold));
    exists (Toy.winning_nodes, Toy.frauds); by vm_compute.
Defined.

Lemma empty_flagged_cell_raises_witness :
  Forall (λ r, length r = length (scale_ Toy.sc)) Toy.Xs ∧
  length (scale_ Toy.sc) ≠ 0%nat ∧
  (0, 0)%nat ∈ flagged_cells Toy.som (Toy.q 1 4) ∧
  win_map Toy.som Toy.Xs !!! (0, 0)%nat = [] ∧
  find_frauds Toy.som Toy.sc (win_map Toy.som Toy.Xs) (Toy.q 1 4) =
  Raise ValueError_no_sample.
Proof.
  assert (Forall (λ r, length r = length (scale_ Toy.sc)) Toy.Xs) as Hw
    by (apply (bool_decide_unpack _); by vm_compute).
  assert (length (scale_ Toy.sc) ≠ 0%nat) as Hf by (by vm_compute).
  assert ((0, 0)%nat ∈ flagged_cells Toy.som (Toy.q 1 4)) as Hc
    by (apply (bool_decide_unpack _); by vm_compute).
  assert (win_map Toy.som Toy.Xs !!! (0, 0)%nat = []) as He
    by (by vm_compute).
  split_and!; [exact Hw|exact Hf|exact Hc|exact He|].
  exact (empty_flagged_cell_raises Toy.som Toy.sc Toy.Xs Hw Hf (Toy.q 1 4)
           (0, 0)%nat Hc He).
Defined.

(** ** What the winning nodes and the table look like *)

Lemma length_concat_nonempty {A} (ls : list (list A)) :
  Forall (λ l, l ≠ []) ls → (length ls ≤ length (concat ls))%nat.
Proof.
  induction 1 as [|l ls Hl _ IH]; simpl; [done|].
  rewrite length_app. destruct l; [done|]. simpl. lia.
Qed.

Lemma winning_nodes_invariant_cells (som : MiniSom) (sc : MinMaxScaler)
    (mappings : gmap cell (list vector)) (thr : Qc) (wn : list cell)
    (t : matrix) :
  find_frauds som sc mappings thr = Ok (wn, t) →
  (length wn ≤ length t)%nat.
Proof.
  intros Hrun. apply find_frauds_spec in Hrun as (-> & _ & Hchk & ->).
  unfold flagged_table. etrans; [|apply length_concat_nonempty].
  - by rewrite length_fmap.
  - apply Forall_fmap. eapply list.Forall_impl; [exact Hchk|].
    intros c Hc. simpl. unfold cell_customers.
    apply check_features_Ok in Hc as (Hne & _).
    by destruct (mappings !!! c).
Qed.

(** X3. When the collection returns, [winning_nodes] lists, without
    repetition, exactly the cells of the grid whose mean inter-neuron
    distance is above the threshold; each of them has at least one
    customer, so the table has at least as many rows as there are winning
    nodes. *)
Theorem winning_nodes_invariant (som : MiniSom) (sc : MinMaxScaler)
    (mappings : gmap cell (list vector)) (thr : Qc) (wn : list cell)
    (t : matrix) :
  find_frauds som sc mappings thr = Ok (wn, t) →
  NoDup wn ∧
  (∀ c, c ∈ wn ↔ (c.1 < grid_x ∧ c.2 < grid_y)%nat ∧ thr < mid som c) ∧
  (∀ c, c ∈ wn → mappings !!! c ≠ []) ∧
  (length wn ≤ length t)%nat.
Proof.
  intros Hrun. apply find_frauds_spec in Hrun as (-> & _ & Hchk & ->).
  assert (∀ c, c ∈ flagged_cells som thr → mappings !!! c ≠ []) as Hne.
  { intros c Hc. rewrite list.Forall_forall in Hchk.
    specialize (Hchk c Hc). by apply check_features_Ok in Hchk as (? & _). }
  split_and!.
  - apply NoDup_flagged_cells.
  - apply elem_of_flagged_cells.
  - exact Hne.
  - unfold flagged_table.
    etrans; [|apply length_concat_nonempty].
    + by rewrite length_fmap.
    + apply Forall_fmap, list.Forall_forall. intros c Hc. simpl.
      unfold cell_customers. specialize (Hne c Hc).
      by destruct (mappings !!! c).
Qed.

Lemma winning_nodes_invariant_witness :
  find_frauds Toy.som Toy.sc (win_map Toy.som Toy.Xs) fraud_threshold =
    Ok (Toy.winning_nodes, Toy.frauds) ∧
  NoDup Toy.winning_nodes ∧
  (length Toy.winning_nodes ≤ length Toy.frauds)%nat.
Proof.
  assert (find_frauds Toy.som Toy.sc (win_map Toy.som Toy.Xs)
            fraud_threshold = Ok (Toy.winning_nodes, Toy.frauds)) as Hrun
    by (by vm_compute).
  destruct (winning_nodes_invariant Toy.som Toy.sc (win_map Toy.som Toy.Xs)
              fraud_threshold Toy.winning_nodes Toy.frauds Hrun)
    as (Hnd & _ & _ & Hlen).
  split_and!; [exact Hrun|exact Hnd|exact Hlen].
Defined.

Lemma som_script_Ok som (dataset : list application) fig wn frauds :
  som_script som dataset = Ok (fig, (wn, frauds)) →
  ∃ sc Xs,
    fit_transform (0, 1) (attributes <$> dataset) = Ok (sc, Xs) ∧
    for_each (plot_body som (approved <$> dataset)) (imap pair Xs) [] =
      Ok fig ∧
    find_frauds som sc (win_map som Xs) fraud_threshold = Ok (wn, frauds).
Proof.
  unfold som_script. intros Hrun.
  apply bind_Ok in Hrun as ([sc Xs] & Hfit & Hrun). cbn [fst snd] in Hrun.
  apply bind_Ok in Hrun as (fig' & Hfig & Hrun).
  apply bind_Ok in Hrun as ([wn' t] & Hfr & [= <- <- <-]).
  by exists sc, Xs.
Qed.

Lemma cell_customers_original som sc n (X : matrix) (c : cell) :
  fitted sc n → Forall (λ r, length r = n) X →
  cell_customers sc (win_map som (transform_row sc <$> X)) c =
  filter (λ r, winner som (transform_row sc r) = c) X.
Proof.
  intros Hsc HX. unfold cell_customers.
  rewrite win_map_lookup, filter_fmap.
  apply (round_trip_rows sc n); [done|]. by apply Forall_filter_keep.
Qed.

(** X4. The order of the table: the script lists the winning nodes in the
    order of their selection, and under each the original rows of the
    customers it has won, in the order of the dataset.  The table is never
    longer than the dataset. *)
Theorem frauds_in_order (som : MiniSom) (dataset : list application)
    (sc : MinMaxScaler) (Xs : matrix) (fig : list artist) (wn : list cell)
    (frauds : matrix) :
  fit_transform (0, 1) (attributes <$> dataset) = Ok (sc, Xs) →
  som_script som dataset = Ok (fig, (wn, frauds)) →
  frauds =
    concat ((λ c, filter (λ r, winner som (transform_row sc r) = c)
                         (attributes <$> dataset)) <$> wn) ∧
  (length frauds ≤ length dataset)%nat.
Proof.
  intros Hfit Hrun.
  apply som_script_Ok in Hrun as (sc' & Xs' & Hfit' & _ & Hfr).
  rewrite Hfit in Hfit'. injection Hfit' as <- <-.
  apply find_frauds_spec in Hfr as (-> & _ & _ & ->).
  pose proof (flagged_table_win_map som sc Xs fraud_threshold) as Hperm.
  apply fit_transform_Ok in Hfit as (n & Hchk & Hsc & ->).
  apply check_array_Ok in Hchk as (_ & _ & Hall). split.
  - unfold flagged_table. f_equal. apply list_fmap_ext. intros _ c _.
    by apply (cell_customers_original som sc n).
  - rewrite Hperm, !length_fmap.
    etrans; [apply sublist_length, sublist_filter|].
    by rewrite !length_fmap.
Qed.

Lemma frauds_in_order_witness :
  fit_transform (0, 1) (attributes <$> Toy.dataset) = Ok (Toy.sc, Toy.Xs) ∧
  som_script Toy.som Toy.dataset =
    Ok (Toy.fig, (Toy.winning_nodes, Toy.frauds)) ∧
  (length Toy.frauds ≤ length Toy.dataset)%nat.
Proof.
  assert (fit_transform (0, 1) (attributes <$> Toy.dataset) =
          Ok (Toy.sc, Toy.Xs)) as Hfit by (by vm_compute).
  assert (som_script Toy.som Toy.dataset =
          Ok (Toy.fig, (Toy.winning_nodes, Toy.frauds))) as Hrun
    by (by vm_compute).
  split_and!; [exact Hfit|exact Hrun|].
  exact (proj2 (frauds_in_order Toy.som Toy.dataset Toy.sc Toy.Xs Toy.fig
                  Toy.winning_nodes Toy.frauds Hfit Hrun)).
Defined.

Lemma filter_all_elem {A} (P : A → Prop) `{!∀ x, Decision (P x)}
    (l : list A) :
  (∀ x, x ∈ l → P x) → filter P l = l.
Proof.
  induction l as [|x l IH]; intros HP; [done|].
  rewrite filter_cons, decide_True by (apply HP; left).
  rewrite IH; [done|]. intros y Hy. apply HP. by right.
Qed.

(** A dataset with one application on each prototype of the small map. *)
Definition lattice_X : matrix :=
  (λ c : cell, [Qc_of_nat c.1; Qc_of_nat c.2]) <$> grid_cells.
(** The value of a run that is known to return. *)
Definition returned {A} (default : A) (r : result A) : A :=
  match r with Ok a => a | Raise _ => default end.

Definition lattice_sc : MinMaxScaler :=
  (returned (Toy.unfitted, []) (fit_transform (0, 1) lattice_X)).1.
Definition lattice_Xs : matrix :=
  (returned (Toy.unfitted, []) (fit_transform (0, 1) lattice_X)).2.
Definition lattice_nodes : list cell :=
  (returned ([], [])
     (find_frauds Toy.som lattice_sc (win_map Toy.som lattice_Xs)
        (Toy.q 1 4))).1.
Definition lattice_frauds : matrix :=
  (returned ([], [])
     (find_frauds Toy.som lattice_sc (win_map Toy.som lattice_Xs)
        (Toy.q 1 4))).2.

(** X5. With a threshold below the mean inter-neuron distance of every
    cell, the collection can only return when each of the 100 cells has
    won a customer, so the dataset has at least 100 rows; the table then
    holds every customer. *)
Theorem threshold_below_every_cell (som : MiniSom) (sc : MinMaxScaler)
    (Xs : matrix) (thr : Qc) (wn : list cell) (t : matrix) :
  (∀ c, c ∈ grid_cells → thr < mid som c) →
  find_frauds som sc (win_map som Xs) thr = Ok (wn, t) →
  t ≡ₚ inverse_transform_row sc <$> Xs ∧
  (grid_x * grid_y ≤ length Xs)%nat.
Proof.
  intros Hall Hrun.
  pose proof (winning_nodes_invariant_cells som sc (win_map som Xs) thr wn t
                Hrun) as Hlen.
  apply find_frauds_spec in Hrun as (-> & _ & _ & ->).
  assert (flagged_table som sc (win_map som Xs) thr ≡ₚ
          inverse_transform_row sc <$> Xs) as Hperm.
  { rewrite flagged_table_win_map. rewrite filter_all; [done|].
    intros x. apply Hall, elem_of_grid_cells, winner_in_grid. }
  split; [exact Hperm|].
  rewrite Hperm, length_fmap in Hlen. etrans; [|exact Hlen].
  unfold flagged_cells. rewrite length_fmap, filter_all_elem.
  - by vm_compute.
  - intros [i j] Hp. apply (Hall (j, i)).
    apply elem_of_row_major in Hp. apply elem_of_grid_cells.
    unfold grid_x, grid_y. simpl in *. lia.
Qed.

Lemma threshold_below_every_cell_witness :
  (∀ c, c ∈ grid_cells → Toy.q 1 4 < mid Toy.som c) ∧
  find_frauds Toy.som lattice_sc (win_map Toy.som lattice_Xs) (Toy.q 1 4) =
    Ok (lattice_nodes, lattice_frauds) ∧
  lattice_frauds ≡ₚ inverse_transform_row lattice_sc <$> lattice_Xs ∧
  (grid_x * grid_y ≤ length lattice_Xs)%nat.
Proof.
  assert (∀ c, c ∈ grid_cells → Toy.q 1 4 < mid Toy.som c) as Hall.
  { intros [x y] _. unfold mid. cbn [fst snd distance_map Toy.som].
    unfold Toy.um. repeat case_decide; by vm_compute. }
  assert (find_frauds Toy.som lattice_sc (win_map Toy.som lattice_Xs)
            (Toy.q 1 4) = Ok (lattice_nodes, lattice_frauds)) as Hrun
    by (by vm_compute).
  destruct (threshold_below_every_cell Toy.som lattice_sc lattice_Xs
              (Toy.q 1 4) lattice_nodes lattice_frauds Hall Hrun)
    as [Hperm Hlen].
  split_and!; [exact Hall|exact Hrun|exact Hperm|exact Hlen].
Defined.

(** ** The markers of the figure (som.py, lines 84-112) *)

(** The marker the comments of the script announce for a customer: at the
    centre of the winning node, a red circle when the application was not
    approved and a green square when it was. *)
Definition marker_of (som : MiniSom) (x : vector) (label : Z) : artist :=
  {| at_x := Qc_of_nat (winner som x).1 + Q2Qc (1 # 2);
     at_y := Qc_of_nat (winner som x).2 + Q2Qc (1 # 2);
     marker := if decide (label = 0%Z) then "o"%char else "s"%char;
     markeredgecolor := if decide (label = 0%Z) then "r"%char else "g"%char |}.

Lemma plot_body_marker som (y : list Z) i (x : vector) fig0 v :
  y !! i = Some v → (v = 0 ∨ v = 1)%Z →
  plot_body som y (i, x) fig0 = Ok (fig0 ++ [marker_of som x v]).
Proof.
  intros Hv Hbin. unfold plot_body, np_index. cbn [fst snd].
  rewrite Hv. by destruct Hbin as [-> | ->].
Qed.

Lemma plot_loop_markers som (y : list Z) (l : list vector) k fig0 :
  (∀ i, (i < length l)%nat →
        ∃ v, y !! (k + i)%nat = Some v ∧ (v = 0 ∨ v = 1)%Z) →
  for_each (plot_body som y) (imap (λ i x, ((k + i)%nat, x)) l) fig0 =
  Ok (fig0 ++ zip_with (marker_of som) l (drop k y)).
Proof.
  revert k fig0. induction l as [|x l IH]; intros k fig0 Hy.
  { simpl. by rewrite app_nil_r. }
  destruct (Hy 0%nat ltac:(simpl; lia)) as (v & Hv & Hbin).
  rewrite Nat.add_0_r in Hv.
  rewrite imap_cons. cbn [for_each]. rewrite Nat.add_0_r.
  rewrite (plot_body_marker som y k x fig0 v Hv Hbin).
  cbn [mbind result_bind].
  rewrite (imap_ext _ (λ i x, ((S k + i)%nat, x))) by
    (intros i x' _; simpl; f_equal; lia).
  rewrite IH.
  - rewrite (drop_S y v k Hv). cbn [zip_with]. by rewrite <- app_assoc.
  - intros i Hi. destruct (Hy (S i) ltac:(simpl; lia)) as (v' & Hv' & Hbin').
    exists v'. split; [|done]. rewrite <- Hv'. f_equal. lia.
Qed.

Lemma som_script_fig (som : MiniSom) (dataset : list application)
    (sc : MinMaxScaler) (Xs : matrix) (fig : list artist)
    (res : list cell * matrix) :
  fit_transform (0, 1) (attributes <$> dataset) = Ok (sc, Xs) →
  som_script som dataset = Ok (fig, res) →
  Forall binary dataset →
  fig = zip_with (marker_of som) Xs (approved <$> dataset) ∧
  length Xs = length dataset.
Proof.
  intros Hfit Hrun Hbin. destruct res as [wn t].
  apply som_script_Ok in Hrun as (sc' & Xs' & Hfit' & Hfig & _).
  rewrite Hfit in Hfit'. injection Hfit' as <- <-.
  apply fit_transform_Ok in Hfit as (_ & _ & _ & HXs).
  assert (length Xs = length dataset) as Hlen
    by (by rewrite HXs, !length_fmap).
  split; [|exact Hlen].
  change (imap pair Xs) with (imap (λ i x, ((0 + i)%nat, x)) Xs) in Hfig.
  rewrite plot_loop_markers in Hfig.
  - injection Hfig as <-. cbn [app]. by rewrite drop_0.
  - intros i Hi. rewrite Hlen in Hi.
    destruct (lookup_lt_is_Some_2 dataset i Hi) as [a Ha].
    exists (approved a). simpl. rewrite list_lookup_fmap, Ha.
    split; [done|]. rewrite list.Forall_forall in Hbin. apply Hbin.
    by eapply list_elem_of_lookup_2.
Qed.

(** X6. With binary labels, a run that returns has drawn one marker per
    customer, in the order of the dataset: each at the centre of the
    customer's winning node, a red circle for label 0 and a green square
    for label 1. *)
Theorem one_marker_per_customer (som : MiniSom)
    (dataset : list application) (sc : MinMaxScaler) (Xs : matrix)
    (fig : list artist) (res : list cell * matrix) :
  fit_transform (0, 1) (attributes <$> dataset) = Ok (sc, Xs) →
  som_script som dataset = Ok (fig, res) →
  Forall binary dataset →
  fig = zip_with (marker_of som) Xs (approved <$> dataset) ∧
  length fig = length dataset.
Proof.
  intros Hfit Hrun Hbin.
  destruct (som_script_fig som dataset sc Xs fig res Hfit Hrun Hbin)
    as [-> Hlen].
  split; [done|]. rewrite length_zip_with, length_fmap. lia.
Qed.

Lemma one_marker_per_customer_witness :
  fit_transform (0, 1) (attributes <$> Toy.dataset) = Ok (Toy.sc, Toy.Xs) ∧
  som_script Toy.som Toy.dataset =
    Ok (Toy.fig, (Toy.winning_nodes, Toy.frauds)) ∧
  Forall binary Toy.dataset ∧
  Toy.fig = zip_with (marker_of Toy.som) Toy.Xs (approved <$> Toy.dataset).
Proof.
  assert (Forall binary Toy.dataset) as Hbin
    by (repeat (apply Forall_cons; [first [by left|by right]|]);
        apply Forall_nil).
  assert (fit_transform (0, 1) (attributes <$> Toy.dataset) =
          Ok (Toy.sc, Toy.Xs)) as Hfit by (by vm_compute).
  assert (som_script Toy.som Toy.dataset =
          Ok (Toy.fig, (Toy.winning_nodes, Toy.frauds))) as Hrun
    by (by vm_compute).
  split_and!; [exact Hfit|exact Hrun|exact Hbin|].
  exact (proj1 (one_marker_per_customer Toy.som Toy.dataset Toy.sc Toy.Xs
                  Toy.fig (Toy.winning_nodes, Toy.frauds) Hfit Hrun Hbin)).
Defined.

Lemma py_index_cases {A} (l : list A) (i : Z) :
  (∃ a, py_index l i = Ok a) ∨ py_index l i = Raise IndexError.
Proof.
  unfold py_index. case_decide; [|by right].
  destruct (l !! _); [left; by eexists|by right].
Qed.

Lemma py_index_out_of_range {A} (l : list A) (i : Z) :
  ¬ (- Z.of_nat (length l) ≤ i < Z.of_nat (length l))%Z →
  py_index l i = Raise IndexError.
Proof.
  intros Hout. unfold py_index.
  rewrite decide_False; [done|]. case_decide; lia.
Qed.

Lemma plot_body_cases som (y : list Z) (ix : nat * vector) fig0 :
  (∃ fig, plot_body som y ix fig0 = Ok fig) ∨
  plot_body som y ix fig0 = Raise IndexError.
Proof.
  unfold plot_body, np_index. destruct (y !! ix.1) as [v|]; [|by right].
  cbn [mbind result_bind].
  destruct (py_index_cases markers v) as [[m ->]| ->]; [|by right].
  destruct (py_index_cases colors v) as [[c ->]| ->]; [|by right].
  left. by eexists.
Qed.


Definition mislabelled : list application :=
  [ {| attributes := [Toy.q 2 1; Toy.q 0 1]; approved := 0 |};
    {| attributes := [Toy.q 0 1; Toy.q 1 1]; approved := 2 |};
    {| attributes := [Toy.q 9 1; Toy.q 9 1]; approved := 1 |} ].


(** ** The heat-map under the markers (som.py, lines 72 and 106-107) *)

From Stdlib Require Import Qround.

(** External ([matplotlib]'s [pcolor(C)]): the unit square between
    [x = j, j + 1] and [y = i, i + 1] is filled with the colour of
    [C[i][j]]. *)
Definition pcolor_at (C : nat → nat → Qc) (x y : Qc) : Qc :=
  C (Z.to_nat (Qfloor (this y))) (Z.to_nat (Qfloor (this x))).

Lemma Qfloor_centre (n : nat) :
  Qfloor (this (Qc_of_nat n + Q2Qc (1 # 2))) = Z.of_nat n.
Proof.
  unfold Qc_of_nat, Qcplus. cbn [this Q2Qc].
  rewrite !Qred_correct.
  unfold Qplus, inject_Z, Qfloor. cbn [Qnum Qden].
  change (Z.pos (1 * 2)) with 2%Z. rewrite Z.mul_1_l.
  symmetry. apply (Z.div_unique _ _ _ 1); lia.
Qed.

Lemma marker_on_its_node som (x : vector) (label : Z) :
  pcolor_at (dist som) (at_x (marker_of som x label))
            (at_y (marker_of som x label)) = mid som (winner som x).
Proof.
  unfold pcolor_at, marker_of, dist, mid. cbn [at_x at_y].
  by rewrite !Qfloor_centre, !Nat2Z.id.
Qed.

(** X8. The heat-map is drawn from the transposed distance map and the
    markers at [(w[0] + 0.5, w[1] + 0.5)]: every marker of a run lies on
    the square that shows the mean inter-neuron distance of the customer's
    own winning node. *)
Theorem markers_on_their_nodes (som : MiniSom)
    (dataset : list application) (sc : MinMaxScaler) (Xs : matrix)
    (fig : list artist) (res : list cell * matrix) :
  fit_transform (0, 1) (attributes <$> dataset) = Ok (sc, Xs) →
  som_script som dataset = Ok (fig, res) →
  Forall binary dataset →
  Forall2 (λ m x, pcolor_at (dist som) (at_x m) (at_y m) =
                  mid som (winner som x)) fig Xs.
Proof.
  intros Hfit Hrun Hbin.
  destruct (som_script_fig som dataset sc Xs fig res Hfit Hrun Hbin)
    as [-> Hlen].
  assert (length Xs = length (approved <$> dataset)) as Hlen'
    by (by rewrite length_fmap).
  clear -Hlen'. revert Hlen'. generalize (approved <$> dataset).
  induction Xs as [|x Xs IH]; intros [|v labels] Hlen;
    try discriminate; [constructor|].
  cbn [zip_with]. constructor; [apply marker_on_its_node|].
  apply IH. by injection Hlen.
Qed.

Lemma markers_on_their_nodes_witness :
  fit_transform (0, 1) (attributes <$> Toy.dataset) = Ok (Toy.sc, Toy.Xs) ∧
  som_script Toy.som Toy.dataset =
    Ok (Toy.fig, (Toy.winning_nodes, Toy.frauds)) ∧
  Forall binary Toy.dataset ∧
  Forall2 (λ m x, pcolor_at (dist Toy.som) (at_x m) (at_y m) =
                  mid Toy.som (winner Toy.som x)) Toy.fig Toy.Xs.
Proof.
  assert (Forall binary Toy.dataset) as Hbin
    by (repeat (apply Forall_cons; [first [by left|by right]|]);
        apply Forall_nil).
  assert (fit_transform (0, 1) (attributes <$> Toy.dataset) =
          Ok (Toy.sc, Toy.Xs)) as Hfit by (by vm_compute).
  assert (som_script Toy.som Toy.dataset =
          Ok (Toy.fig, (Toy.winning_nodes, Toy.frauds))) as Hrun
    by (by vm_compute).
  split_and!; [exact Hfit|exact Hrun|exact Hbin|].
  exact (markers_on_their_nodes Toy.som Toy.dataset Toy.sc Toy.Xs Toy.fig
           (Toy.winning_nodes, Toy.frauds) Hfit Hrun Hbin).
Defined.

(** ** The scaled features (som.py, lines 20-27) *)

Section fold_bound.
Context (R : relation Qc) (f : Qc → Qc → Qc).
Context (Hrefl : ∀ a, R a a) (Htrans : ∀ a b c, R a b → R b c → R a c).
Context (Hl : ∀ a b, R (f a b) a) (Hr : ∀ a b, R (f a b) b).

Lemma Forall2_bound_refl (a : vector) : Forall2 R a a.
Proof. induction a; constructor; [apply Hrefl|done]. Qed.

Lemma Forall2_bound_trans (a b c : vector) :
  Forall2 R a b → Forall2 R b c → Forall2 R a c.
Proof.
  intros Hab. revert c. induction Hab as [|x y a b Hxy _ IH]; intros c Hbc.
  { by inversion Hbc. }
  inversion Hbc as [|?? z c' Hyz Hbc']; subst.
  constructor; [by eapply Htrans|by apply IH].
Qed.

Lemma zip_with_bound_l (a b : vector) :
  length a = length b → Forall2 R (zip_with f a b) a.
Proof.
  revert b. induction a as [|x a IH]; intros [|y b] Hlen;
    try discriminate; [constructor|].
  cbn [zip_with]. constructor; [apply Hl|]. apply IH. by injection Hlen.
Qed.

Lemma zip_with_bound_r (a b : vector) :
  length a = length b → Forall2 R (zip_with f a b) b.
Proof.
  revert b. induction a as [|x a IH]; intros [|y b] Hlen;
    try discriminate; [constructor|].
  cbn [zip_with]. constructor; [apply Hr|]. apply IH. by injection Hlen.
Qed.

Lemma foldl_bound_acc (rows : matrix) (acc : vector) n :
  length acc = n → Forall (λ r, length r = n) rows →
  Forall2 R (foldl (zip_with f) acc rows) acc.
Proof.
  revert acc. induction rows as [|r rows IH]; intros acc Hacc Hrows.
  { apply Forall2_bound_refl. }
  inversion_clear Hrows as [|?? Hr' Hrows']. cbn [foldl].
  apply Forall2_bound_trans with (zip_with f acc r).
  - apply IH; [|done]. rewrite length_zip_with. lia.
  - apply zip_with_bound_l. congruence.
Qed.

Lemma foldl_bound_row (rows : matrix) (acc r : vector) n :
  length acc = n → Forall (λ r, length r = n) rows → r ∈ rows →
  Forall2 R (foldl (zip_with f) acc rows) r.
Proof.
  revert acc. induction rows as [|r' rows IH]; intros acc Hacc Hrows Hin.
  { by apply elem_of_nil in Hin. }
  inversion_clear Hrows as [|?? Hr' Hrows']. cbn [foldl].
  assert (length (zip_with f acc r') = n) as Hlen
    by (rewrite length_zip_with; lia).
  apply elem_of_cons in Hin as [->|Hin].
  - apply Forall2_bound_trans with (zip_with f acc r').
    + by apply (foldl_bound_acc rows _ n).
    + apply zip_with_bound_r. congruence.
  - by apply IH.
Qed.
End fold_bound.

Lemma column_min_le (X : matrix) n (r : vector) :
  check_array X = Ok n → r ∈ X → Forall2 Qcle (column_min X) r.
Proof.
  intros Hchk Hr. apply check_array_Ok in Hchk as (_ & _ & Hall).
  destruct X as [|r0 X']; [by apply elem_of_nil in Hr|].
  inversion_clear Hall as [|?? Hr0 HX']. unfold column_min.
  assert (∀ a b, Qc_min a b ≤ a) as Hl.
  { intros a b. unfold Qc_min. case_decide as Hab; [apply Qcle_refl|].
    by apply Qclt_le_weak, Qcnot_le_lt. }
  assert (∀ a b, Qc_min a b ≤ b) as Hrr.
  { intros a b. unfold Qc_min. case_decide; [done|apply Qcle_refl]. }
  apply elem_of_cons in Hr as [->|Hr].
  - by apply (foldl_bound_acc Qcle Qc_min Qcle_refl Qcle_trans Hl X' r0 n).
  - by apply (foldl_bound_row Qcle Qc_min Qcle_refl Qcle_trans Hl Hrr X' r0 r n).
Qed.

Lemma column_max_ge (X : matrix) n (r : vector) :
  check_array X = Ok n → r ∈ X → Forall2 Qcle r (column_max X).
Proof.
  intros Hchk Hr. apply check_array_Ok in Hchk as (_ & _ & Hall).
  destruct X as [|r0 X']; [by apply elem_of_nil in Hr|].
  inversion_clear Hall as [|?? Hr0 HX']. unfold column_max.
  assert (∀ a b, a ≤ Qc_max a b) as Hl.
  { intros a b. unfold Qc_max. case_decide; [done|apply Qcle_refl]. }
  assert (∀ a b, b ≤ Qc_max a b) as Hrr.
  { intros a b. unfold Qc_max. case_decide as Hab; [apply Qcle_refl|].
    by apply Qclt_le_weak, Qcnot_le_lt. }
  assert (∀ a b c : Qc, b ≤ a → c ≤ b → c ≤ a) as Htr
    by (intros a b c ??; by apply Qcle_trans with b).
  apply Forall2_flip.
  apply elem_of_cons in Hr as [->|Hr].
  - by apply (foldl_bound_acc (flip Qcle) Qc_max Qcle_refl Htr Hl X' r0 n).
  - by apply (foldl_bound_row (flip Qcle) Qc_max Qcle_refl Htr Hl Hrr
                X' r0 r n).
Qed.

Lemma scale_entry_bounds (x mn mx : Qc) :
  mn ≤ x → x ≤ mx →
  let d := if decide (mx - mn = 0) then 1 else mx - mn in
  let s := (1 - 0) / d in
  0 ≤ x * s + (0 - mn * s) ∧ x * s + (0 - mn * s) ≤ 1.
Proof.
  intros Hlo Hhi d s.
  assert (0 ≤ x - mn) as Hx by (by apply (proj1 (Qcle_minus_iff mn x))).
  assert (0 < d ∧ x - mn ≤ d) as [Hd Hxd].
  { subst d. case_decide as Hz.
    - split; [done|].
      assert (mx = mn) as -> by (rewrite <- (Qcplus_0_l mn), <- Hz; ring).
      assert (x = mn) as -> by (by apply Qcle_antisym).
      replace (mn - mn) with 0 by ring. done.
    - split.
      + assert (0 ≤ mx - mn) as H0.
        { apply (proj1 (Qcle_minus_iff mn mx)). by apply Qcle_trans with x. }
        apply Qcle_lt_or_eq in H0 as [?|Heq]; [done|].
        by rewrite <- Heq in Hz.
      + by apply Qcplus_le_mono_r. }
  assert (d ≠ 0) as Hd0 by (intros Heq; by apply (Qclt_not_eq _ _ Hd)).
  assert (x * s + (0 - mn * s) = (x - mn) / d) as ->
    by (subst s; field; done).
  split.
  - apply (Qcmult_le_mono_pos_r _ _ d Hd).
    replace ((x - mn) / d * d) with (x - mn) by (field; done).
    by rewrite Qcmult_0_l.
  - apply (Qcmult_le_mono_pos_r _ _ d Hd).
    replace ((x - mn) / d * d) with (x - mn) by (field; done).
    by rewrite Qcmult_1_l.
Qed.

Definition in_unit_interval (v : Qc) : Prop := 0 ≤ v ∧ v ≤ 1.

Lemma transform_row_unit (lo hi r : vector) :
  Forall2 Qcle lo r → Forall2 Qcle r hi →
  Forall in_unit_interval
    (zip_with Qcplus
       (zip_with Qcmult r
          ((λ d, (1 - 0) / d) <$>
             handle_zeros_in_scale (zip_with Qcminus hi lo)))
       (zip_with (λ m s, 0 - m * s) lo
          ((λ d, (1 - 0) / d) <$>
             handle_zeros_in_scale (zip_with Qcminus hi lo)))).
Proof.
  intros Hlo. revert hi.
  induction Hlo as [|mn x lo r Hmn _ IH]; intros hi Hhi.
  { constructor. }
  inversion Hhi as [|?? mx hi' Hmx Hhi']; subst.
  unfold handle_zeros_in_scale in *. cbn [zip_with fmap list_fmap].
  constructor; [by apply scale_entry_bounds|]. by apply IH.
Qed.

(** X9. "Get all features between 0 and 1": every entry of the scaled
    table lies in the closed interval from 0 to 1, constant columns
    included. *)
Theorem scaled_features_in_unit_interval (X : matrix) (sc : MinMaxScaler)
    (Xs : matrix) :
  fit_transform (0, 1) X = Ok (sc, Xs) →
  Forall (Forall in_unit_interval) Xs.
Proof.
  unfold fit_transform. intros Hrun.
  apply bind_Ok in Hrun as (sc' & Hfit & Hrun).
  apply bind_Ok in Hrun as (Xs' & Htr & [= -> ->]).
  unfold transform in Htr. apply bind_Ok in Htr as (_ & _ & [= <-]).
  unfold fit in Hfit. case_decide as Hrange; [|done].
  destruct (check_array X) as [n|e] eqn:Hchk; [|done].
  cbn [mbind result_bind fst snd] in Hfit. injection Hfit as <-.
  apply Forall_fmap, list.Forall_forall. intros r Hr.
  unfold transform_row. cbn [scale_ min_ compose].
  apply transform_row_unit.
  - by apply (column_min_le X n).
  - by apply (column_max_ge X n).
Qed.

Lemma scaled_features_in_unit_interval_witness :
  fit_transform (0, 1) Toy.X = Ok (Toy.sc, Toy.Xs) ∧
  Forall (Forall in_unit_interval) Toy.Xs.
Proof.
  assert (fit_transform (0, 1) Toy.X = Ok (Toy.sc, Toy.Xs)) as Hfit
    by (by vm_compute).
  split; [exact Hfit|].
  exact (scaled_features_in_unit_interval Toy.X Toy.sc Toy.Xs Hfit).
Defined.

Lemma transform_row_inverse_transform_row sc n (r : vector) :
  fitted sc n → length r = n →
  transform_row sc (inverse_transform_row sc r) = r.
Proof.
  unfold fitted, inverse_transform_row, transform_row.
  destruct sc as [rg lo hi scale mins]; simpl.
  intros (Hs & Hm & Hnz) <-.
  revert scale mins Hs Hm Hnz.
  induction r as [|x r IH]; intros [|s scale] [|m mins] Hs Hm Hnz;
    simpl in *; try discriminate; [done|].
  inversion_clear Hnz as [|?? Hs0 Hnz']. f_equal.
  - field. exact Hs0.
  - apply IH; [congruence|congruence|done].
Qed.

(** X10. Once fitted, scaling and inverse scaling are inverse to each other
    on every row of the dataset's width, whether or not the row belongs to
    the dataset: what [inverse_transform] returns for a scaled row scales
    back to it, and the other way round. *)
Theorem scaling_is_a_bijection (X : matrix) (sc : MinMaxScaler)
    (Xs : matrix) (r : vector) :
  fit_transform (0, 1) X = Ok (sc, Xs) →
  length r = width X →
  inverse_transform_row sc (transform_row sc r) = r ∧
  transform_row sc (inverse_transform_row sc r) = r.
Proof.
  intros Hfit Hr.
  apply fit_transform_Ok in Hfit as (n & Hchk & Hsc & _).
  apply check_array_Ok in Hchk as (Hne & _ & Hall).
  assert (width X = n) as Hw.
  { destruct X as [|r0 X']; [done|]. by inversion Hall. }
  rewrite Hw in Hr. split.
  - by apply (inverse_transform_row_transform_row sc n).
  - by apply (transform_row_inverse_transform_row sc n).
Qed.

Lemma scaling_is_a_bijection_witness :
  fit_transform (0, 1) Toy.X = Ok (Toy.sc, Toy.Xs) ∧
  length [Toy.q 5 1; Toy.q (-3) 1] = width Toy.X ∧
  inverse_transform_row Toy.sc
    (transform_row Toy.sc [Toy.q 5 1; Toy.q (-3) 1]) =
  [Toy.q 5 1; Toy.q (-3) 1].
Proof.
  assert (length [Toy.q 5 1; Toy.q (-3) 1] = width Toy.X) as Hr
    by reflexivity.
  assert (fit_transform (0, 1) Toy.X = Ok (Toy.sc, Toy.Xs)) as Hfit
    by (by vm_compute).
  split_and!; [exact Hfit|exact Hr|].
  exact (proj1 (scaling_is_a_bijection Toy.X Toy.sc Toy.Xs
                  [Toy.q 5 1; Toy.q (-3) 1] Hfit Hr)).
Defined.

(** * Customer segments: K-Means Clustering.py *)

From stdpp Require Import strings.

(** A loop that builds a list from the results of a call that may raise. *)
Fixpoint map_result {A B} (f : A → result B) (l : list A) : result (list B) :=
  match l with
  | [] => Ok []
  | a :: l' => b ← f a; bs ← map_result f l'; Ok (b :: bs)
  end.

(** [dataset.iloc[:, cols].values] (line 9): of every row the entries at
    the given positions, in that order; a position beyond the end of a row
    raises. *)
Definition iloc_columns (cols : list nat) (dataset : matrix) : result matrix :=
  map_result (λ r, map_result (np_index r) cols) dataset.

(** The rows of [X] that the mask [y_kmeans == k] keeps. *)
Definition masked_rows (X : matrix) (y_kmeans : list nat) (k : nat) : matrix :=
  (filter (λ ry, ry.2 = k) (zip X y_kmeans)).*1.

(** [X[y_kmeans == k, col]] (lines 30-34): a boolean mask must have one
    entry per row of the array it indexes. *)
Definition masked_column (X : matrix) (y_kmeans : list nat) (k col : nat)
  : result (list Qc) :=
  if decide (length y_kmeans = length X) then
    map_result (λ r, np_index r col) (masked_rows X y_kmeans k)
  else Raise IndexError.

(** What one call of [plt.scatter] draws. *)
Record series : Type := {
  series_x : list Qc;
  series_y : list Qc;
  series_c : string;
  series_label : string
}.

(** The cluster label, the colour and the legend of the five calls. *)
Definition segments : list (nat * string * string) :=
  [ (0%nat, "red", "Careful"); (1%nat, "blue", "Standard");
    (2%nat, "green", "Target"); (3%nat, "cyan", "Careless");
    (4%nat, "magenta", "Sensible") ]%string.

Definition scatter_segment (X : matrix) (y_kmeans : list nat)
    (seg : nat * string * string) : result series :=
  xs ← masked_column X y_kmeans seg.1.1 0;
  ys ← masked_column X y_kmeans seg.1.1 1;
  Ok {| series_x := xs; series_y := ys;
        series_c := seg.1.2; series_label := seg.2 |}.

Definition scatter_clusters (X : matrix) (y_kmeans : list nat)
  : result (list series) :=
  map_result (scatter_segment X y_kmeans) segments.

(** External ([plt.plot(x, y)]): the two sequences must have the same
    length. *)
Definition plt_plot (x : list nat) (y : list Qc) : result (list (nat * Qc)) :=
  if decide (length x = length y) then Ok (zip x y)
  else Raise ValueError_shape.

(** Modelled from the spec: the fitted K-Means estimator is an external
    collaborator (spec 4.4); of a fit the script reads the objective value
    and the cluster label of every record. *)
Record KMeansModel : Type := {
  inertia_ : Qc;
  labels_ : list nat
}.

Section kmeans.
(** [KMeans(n_clusters = k, init = 'k-means++', n_init = 10,
    max_iter = 300, random_state = 0).fit(X)] *)
Context (KMeans : nat → matrix → KMeansModel).

(** The elbow loop (lines 13-17). *)
Definition elbow (X : matrix) : list Qc :=
  foldl (λ wcss i, wcss ++ [inertia_ (KMeans i X)]) [] (seq 1 10).

(** The script: the points of the elbow curve and the five scatter
    series. *)
Definition kmeans_script (dataset : matrix)
  : result (list (nat * Qc) * list series) :=
  X ← iloc_columns [3; 4]%nat dataset;
  curve ← plt_plot (seq 1 10) (elbow X);
  let y_kmeans := labels_ (KMeans 5 X) in
  clusters ← scatter_clusters X y_kmeans;
  Ok (curve, clusters).
End kmeans.

(** ** Properties of the clustering script *)

Lemma map_result_fmap {A B} (f : A → result B) (g : A → B) (l : list A) :
  (∀ a, a ∈ l → f a = Ok (g a)) → map_result f l = Ok (g <$> l).
Proof.
  induction l as [|a l IH]; intros Hf; [done|].
  cbn [map_result]. rewrite Hf by left. cbn [mbind result_bind].
  rewrite IH; [done|]. intros a' Ha'. apply Hf. by right.
Qed.

Lemma map_result_raise {A B} (f : A → result B) (e : exn) (l : list A) :
  (∀ a, a ∈ l → (∃ b, f a = Ok b) ∨ f a = Raise e) →
  (∃ a, a ∈ l ∧ f a = Raise e) →
  map_result f l = Raise e.
Proof.
  induction l as [|a l IH]; intros Hf (b & Hb & Hraise).
  { by apply elem_of_nil in Hb. }
  cbn [map_result].
  destruct (Hf a ltac:(left)) as [[b' Hb']|He]; [|by rewrite He].
  rewrite Hb'. cbn [mbind result_bind].
  apply elem_of_cons in Hb as [->|Hb]; [by rewrite Hraise in Hb'|].
  rewrite IH; [done| |by exists b].
  intros a' Ha'. apply Hf. by right.
Qed.

(** The entry of a row at a position that exists. *)
Definition entry (r : vector) (j : nat) : Qc := default (Q2Qc 0) (r !! j).

Lemma np_index_entry (r : vector) (j : nat) :
  (j < length r)%nat → np_index r j = Ok (entry r j).
Proof.
  intros Hj. unfold np_index, entry.
  by destruct (lookup_lt_is_Some_2 r j Hj) as [v ->].
Qed.

Lemma np_index_beyond {A} (r : list A) (j : nat) :
  (length r ≤ j)%nat → np_index r j = Raise IndexError.
Proof. intros Hj. unfold np_index. by rewrite lookup_ge_None_2. Qed.

Definition columns_3_4 (r : vector) : vector := [entry r 3; entry r 4].

Lemma iloc_row_cases (r : vector) :
  (∃ b, map_result (np_index r) [3; 4]%nat = Ok b) ∨
  map_result (np_index r) [3; 4]%nat = Raise IndexError.
Proof.
  cbn [map_result]. unfold np_index.
  destruct (r !! 3%nat); [|by right]. destruct (r !! 4%nat); [|by right].
  left. by eexists.
Qed.

Lemma iloc_columns_rows (dataset : matrix) :
  Forall (λ r, (5 ≤ length r)%nat) dataset →
  iloc_columns [3; 4]%nat dataset = Ok (columns_3_4 <$> dataset).
Proof.
  intros Hall. apply map_result_fmap. intros r Hr.
  rewrite list.Forall_forall in Hall. specialize (Hall r Hr).
  cbn [map_result]. rewrite !np_index_entry by lia. done.
Qed.


Lemma filter_split_key {A K} `{EqDecision K} (f : A → K) (k : K)
    (ks : list K) (l : list A) :
  k ∉ ks →
  filter (λ x, f x = k) l ++ filter (λ x, f x ∈ ks) l ≡ₚ
  filter (λ x, f x ∈ k :: ks) l.
Proof.
  intros Hk. induction l as [|x l IH]; [done|].
  rewrite !filter_cons.
  destruct (decide (f x = k)) as [Heq|Hne].
  - rewrite decide_False by (by rewrite Heq).
    rewrite decide_True by (rewrite Heq; left).
    simpl. by rewrite IH.
  - destruct (decide (f x ∈ ks)) as [Hin|Hnin].
    + rewrite decide_True by (by right).
      rewrite <- Permutation_middle. by rewrite IH.
    + rewrite decide_False; [exact IH|].
      intros Hin. apply elem_of_cons in Hin as [?|?]; done.
Qed.

Lemma concat_filter_keys {A K} `{EqDecision K} (f : A → K) (ks : list K)
    (l : list A) :
  NoDup ks →
  concat ((λ k, filter (λ x, f x = k) l) <$> ks) ≡ₚ filter (λ x, f x ∈ ks) l.
Proof.
  induction 1 as [|k ks Hk _ IH].
  - simpl. induction l as [|x l IHl]; [done|].
    rewrite filter_cons. rewrite decide_False; [exact IHl|].
    apply not_elem_of_nil.
  - cbn [fmap list_fmap concat]. rewrite IH. by apply filter_split_key.
Qed.

Definition point (r : vector) : Qc * Qc := (entry r 0, entry r 1).

(** The points of one scatter series. *)
Definition drawn (s : series) : list (Qc * Qc) :=
  zip (series_x s) (series_y s).

Lemma zip_entries (rows : matrix) :
  zip ((λ r, entry r 0) <$> rows) ((λ r, entry r 1) <$> rows) =
  point <$> rows.
Proof.
  induction rows as [|r rows IH]; [done|].
  cbn [fmap list_fmap zip_with]. f_equal. exact IH.
Qed.

Lemma masked_rows_elem (X : matrix) (y_kmeans : list nat) k (r : vector) :
  r ∈ masked_rows X y_kmeans k → r ∈ X.
Proof.
  unfold masked_rows. intros Hr.
  apply list_elem_of_fmap in Hr as ([r' l] & -> & Hrl).
  apply list_elem_of_filter in Hrl as [_ Hrl].
  by apply elem_of_zip_l in Hrl.
Qed.

Section scatter.
Context (X : matrix) (y_kmeans : list nat).
Context (Hwidth : Forall (λ r, length r = 2%nat) X).
Context (Hlabels : length y_kmeans = length X).

Lemma masked_column_entries (k col : nat) :
  (col < 2)%nat →
  masked_column X y_kmeans k col =
  Ok ((λ r, entry r col) <$> masked_rows X y_kmeans k).
Proof.
  intros Hcol. unfold masked_column. rewrite decide_True by done.
  apply map_result_fmap. intros r Hr. apply np_index_entry.
  apply masked_rows_elem in Hr. rewrite list.Forall_forall in Hwidth.
  rewrite (Hwidth r Hr). done.
Qed.

Definition segment_series (seg : nat * string * string) : series :=
  {| series_x := (λ r, entry r 0) <$> masked_rows X y_kmeans seg.1.1;
     series_y := (λ r, entry r 1) <$> masked_rows X y_kmeans seg.1.1;
     series_c := seg.1.2;
     series_label := seg.2 |}.

Lemma scatter_clusters_Ok :
  scatter_clusters X y_kmeans = Ok (segment_series <$> segments).
Proof.
  unfold scatter_clusters. apply map_result_fmap. intros seg _.
  unfold scatter_segment. rewrite !masked_column_entries by lia. done.
Qed.

(** X12. On a two-column table with one label per row, the five scatter
    calls never raise; the call for cluster [k] draws the points of the
    rows labelled [k]; together they draw, each once, exactly the rows
    whose label is below 5, so every customer when all labels are. *)
Theorem every_customer_in_one_segment :
  ∃ clusters,
    scatter_clusters X y_kmeans = Ok clusters ∧
    (∀ k s, clusters !! k = Some s →
            drawn s = point <$> masked_rows X y_kmeans k) ∧
    concat (drawn <$> clusters) ≡ₚ
      point <$> (filter (λ ry, (ry.2 < 5)%nat) (zip X y_kmeans)).*1 ∧
    (Forall (λ l, (l < 5)%nat) y_kmeans →
     concat (drawn <$> clusters) ≡ₚ point <$> X).
Proof.
  exists (segment_series <$> segments).
  assert (concat (drawn <$> (segment_series <$> segments)) ≡ₚ
          point <$> (filter (λ ry, (ry.2 < 5)%nat) (zip X y_kmeans)).*1)
    as Hperm.
  { assert (drawn <$> (segment_series <$> segments) =
            fmap (M:=list) point <$>
              (fmap (M:=list) fst <$>
                 ((λ k, filter (λ ry : vector * nat, ry.2 = k)
                                (zip X y_kmeans)) <$>
                  [0; 1; 2; 3; 4]%nat))) as ->.
    { unfold segments. cbn [fmap list_fmap]. unfold drawn, segment_series.
      cbn [series_x series_y fst snd]. by rewrite !zip_entries. }
    rewrite <- !fmap_concat. do 2 apply fmap_Permutation.
    rewrite (concat_filter_keys snd) by (apply (bool_decide_unpack _); done).
    erewrite list_filter_iff; [done|]. intros [r l]. cbn [snd].
    rewrite !elem_of_cons, elem_of_nil. lia. }
  split_and!.
  - apply scatter_clusters_Ok.
  - intros k s Hs. unfold segments in Hs.
    destruct k as [|[|[|[|[|k]]]]]; try done;
      injection Hs as <-; unfold drawn, segment_series;
      cbn [series_x series_y fst snd]; apply zip_entries.
  - exact Hperm.
  - intros Hall. rewrite Hperm. apply fmap_Permutation.
    rewrite filter_all_elem.
    + rewrite fst_zip; [done|lia].
    + intros [r l] Hrl. cbn [snd]. apply elem_of_zip_r in Hrl.
      rewrite list.Forall_forall in Hall. by apply Hall.
Qed.
End scatter.

(** A table of four customers with five columns, and their clusters. *)
Definition mall : matrix :=
  [ [Toy.q 1 1; Toy.q 0 1; Toy.q 19 1; Toy.q 15 1; Toy.q 39 1];
    [Toy.q 2 1; Toy.q 1 1; Toy.q 21 1; Toy.q 15 1; Toy.q 81 1];
    [Toy.q 3 1; Toy.q 1 1; Toy.q 20 1; Toy.q 16 1; Toy.q 6 1];
    [Toy.q 4 1; Toy.q 0 1; Toy.q 23 1; Toy.q 120 1; Toy.q 79 1] ].
Definition mall_X : matrix := columns_3_4 <$> mall.
Definition mall_labels : list nat := [0; 4; 2; 0]%nat.

Lemma every_customer_in_one_segment_witness :
  Forall (λ r, length r = 2%nat) mall_X ∧
  length mall_labels = length mall_X ∧
  ∃ clusters,
    scatter_clusters mall_X mall_labels = Ok clusters ∧
    (∀ k s, clusters !! k = Some s →
            drawn s = point <$> masked_rows mall_X mall_labels k) ∧
    concat (drawn <$> clusters) ≡ₚ
      point <$>
        (filter (λ ry, (ry.2 < 5)%nat) (zip mall_X mall_labels)).*1 ∧
    (Forall (λ l, (l < 5)%nat) mall_labels →
     concat (drawn <$> clusters) ≡ₚ point <$> mall_X).
Proof.
  assert (Forall (λ r, length r = 2%nat) mall_X) as Hw
    by (apply (bool_decide_unpack _); by vm_compute).
  assert (length mall_labels = length mall_X) as Hl by reflexivity.
  split_and!; [exact Hw|exact Hl|].
  exact (every_customer_in_one_segment mall_X mall_labels Hw Hl).
Defined.

(** The series of cluster 0 in the small table: the first and the last
    customer. *)
Example mall_cluster_0 :
  (λ s, (this <$> series_x s, this <$> series_y s)) <$>
    (scatter_clusters mall_X mall_labels ≫= λ cs, np_index cs 0) =
  Ok ([15; 120]%Q, [39; 79]%Q).
Proof. by vm_compute. Qed.

Lemma foldl_snoc_fmap {A B} (g : A → B) (l : list A) (acc : list B) :
  foldl (λ acc a, acc ++ [g a]) acc l = acc ++ (g <$> l).
Proof.
  revert acc. induction l as [|a l IH]; intros acc.
  { simpl. by rewrite app_nil_r. }
  cbn [foldl]. rewrite IH. by rewrite <- app_assoc.
Qed.

Lemma zip_fmap_r {A B} (g : A → B) (l : list A) :
  zip l (g <$> l) = (λ a, (a, g a)) <$> l.
Proof.
  induction l as [|a l IH]; [done|].
  cbn [fmap list_fmap zip_with]. f_equal. exact IH.
Qed.


Definition toy_KMeans (k : nat) (X : matrix) : KMeansModel :=
  {| inertia_ := Qc_of_nat (11 - k);
     labels_ := imap (λ i _, (i mod k)%nat) X |}.

